(** * lazymigrate: schema splitting and transactional migration

    A shallow embedding of [lazymigrate.go].  Go strings are byte
    sequences and are modelled by [string] (a list of 8-bit [ascii]);
    Go's [int] is modelled by [Z] (the only arithmetic the package does
    on it is [i++] below [len(versions)], which cannot wrap). *)

From Stdlib Require Import ZArith Lia List Bool Ascii String.
From Stdlib Require Import DecimalString DecimalZ.
Import ListNotations.
Open Scope string_scope.
Open Scope Z_scope.

(** ** Byte strings *)

Definition len (s : string) : Z := Z.of_nat (String.length s).

(** [take n s] is [s[:n]] and [drop n s] is [s[n:]]. *)
Fixpoint take (n : nat) (s : string) : string :=
  match n, s with
  | S n', String c s' => String c (take n' s')
  | _, _ => EmptyString
  end.

Fixpoint drop (n : nat) (s : string) : string :=
  match n, s with
  | S n', String _ s' => drop n' s'
  | _, _ => s
  end.

Definition slice_to (s : string) (m : Z) : string := take (Z.to_nat m) s.
Definition slice_from (s : string) (m : Z) : string := drop (Z.to_nat m) s.

(** The line feed of the Go literal ["\n"]. *)
Definition nl : string := String "010"%char EmptyString.

(** ** The part of Go's [unicode/utf8] and [strings] that [Versions] calls *)

Module utf8.

Definition byte (s : string) (i : nat) : Z :=
  match String.get i s with
  | Some c => Z.of_nat (nat_of_ascii c)
  | None => -1
  end.

Definition between (lo hi x : Z) : bool := (lo <=? x) && (x <=? hi).

(** Width in bytes of the first UTF-8 sequence of a non-empty string,
    as [utf8.DecodeRuneInString] reports it; an invalid or truncated
    sequence has width 1. *)
Definition runeSize (s : string) : nat :=
  let b0 := byte s 0 in
  let b1 := byte s 1 in
  let b2 := byte s 2 in
  let b3 := byte s 3 in
  let cont := between 128 191 in
  if between 194 223 b0 then (if cont b1 then 2 else 1)%nat
  else if b0 =? 224 then (if between 160 191 b1 && cont b2 then 3 else 1)%nat
  else if between 225 236 b0 || between 238 239 b0
       then (if cont b1 && cont b2 then 3 else 1)%nat
  else if b0 =? 237 then (if between 128 159 b1 && cont b2 then 3 else 1)%nat
  else if b0 =? 240
       then (if between 144 191 b1 && cont b2 && cont b3 then 4 else 1)%nat
  else if between 241 243 b0
       then (if cont b1 && cont b2 && cont b3 then 4 else 1)%nat
  else if b0 =? 244
       then (if between 128 143 b1 && cont b2 && cont b3 then 4 else 1)%nat
  else 1%nat.

Fixpoint count_loop (fuel : nat) (s : string) : Z :=
  match fuel, s with
  | S fuel', String _ _ => 1 + count_loop fuel' (drop (runeSize s) s)
  | _, _ => 0
  end.

(** [utf8.RuneCountInString]; every rune takes at least one byte, so
    [length s] rounds are enough. *)
Definition RuneCountInString (s : string) : Z :=
  count_loop (String.length s) s.

End utf8.

Module strings.

(** [strings.Index]: the index of the first instance of [substr] in
    [s], or -1 if there is none. *)
Fixpoint Index (s substr : string) : Z :=
  if prefix substr s then 0
  else match s with
       | EmptyString => -1
       | String _ s' =>
           let i := Index s' substr in
           if i <? 0 then -1 else i + 1
       end.

(** The loop of [strings.Count]:
    [for { i := Index(s, substr); if i == -1 { return n }; n++;
           s = s[i+len(substr):] }]. *)
Fixpoint Count_loop (fuel : nat) (s substr : string) (n : Z) : Z :=
  match fuel with
  | O => n
  | S fuel' =>
      let i := Index s substr in
      if i =? -1 then n
      else Count_loop fuel' (slice_from s (i + len substr)) substr (n + 1)
  end.

(** [strings.Count]: the number of non-overlapping instances of
    [substr] in [s].  With a non-empty [substr] every round of the loop
    shortens [s], so the loop leaves through [i == -1] within
    [length s + 1] rounds ([Count_loop_fuel] below).  Go counts a
    one-byte [substr] with [bytealg.CountString], which gives what the
    loop gives. *)
Definition Count (s substr : string) : Z :=
  if String.eqb substr "" then utf8.RuneCountInString s + 1
  else Count_loop (S (String.length s)) s substr 0.

(** The loop of [strings.explode], which fills [a[0..n-2]] with one
    UTF-8 sequence each and puts the rest in [a[n-1]]. *)
Fixpoint explode_loop (k : nat) (s : string) : list string :=
  match k with
  | O => [s]
  | S k' =>
      let size := utf8.runeSize s in
      take size s :: explode_loop k' (drop size s)
  end.

Definition explode (s : string) (n : Z) : list string :=
  let l := utf8.RuneCountInString s in
  let n := if (n <? 0) || (l <? n) then l else n in
  if 0 <? n then explode_loop (Z.to_nat (n - 1)) s else [].

(** The loop of [strings.genSplit]; [k] is [n - i], the rounds left:
    [for i < n { m := Index(s, sep); if m < 0 { break };
                 a[i] = s[:m+sepSave]; s = s[m+len(sep):]; i++ }
     a[i] = s; return a[:i+1]]. *)
Fixpoint genSplit_loop (k : nat) (s sep : string) (sepSave : Z)
  : list string :=
  match k with
  | O => [s]
  | S k' =>
      let m := Index s sep in
      if m <? 0 then [s]
      else slice_to s (m + sepSave)
             :: genSplit_loop k' (slice_from s (m + len sep)) sep sepSave
  end.

Definition genSplit (s sep : string) (sepSave n : Z) : list string :=
  if n =? 0 then []
  else if String.eqb sep "" then explode s n
  else
    let n := if n <? 0 then Count s sep + 1 else n in
    let n := if len s + 1 <? n then len s + 1 else n in
    genSplit_loop (Z.to_nat (n - 1)) s sep sepSave.

(** [strings.Split]. *)
Definition Split (s sep : string) : list string := genSplit s sep 0 (-1).

(** [strings.Join]: the elements with [sep] between them. *)
Fixpoint Join (elems : list string) (sep : string) : string :=
  match elems with
  | [] => ""
  | [x] => x
  | x :: rest => x ++ sep ++ Join rest sep
  end.

End strings.

(** ** The package *)

(** [const Delimiter]. *)
Definition Delimiter : string :=
  "--------------------------------- NEW VERSION ---------------------------------".

Record Schema : Type := mkSchema { schema : string; magic : string }.

Definition NewSchemaWithMagic (schema magic : string) : Schema :=
  mkSchema schema magic.

Definition NewSchema (schema : string) : Schema :=
  NewSchemaWithMagic schema Delimiter.

(** The separator [Versions] splits on: ["\n"+s.magic+"\n"]. *)
Definition separator (magic : string) : string := nl ++ magic ++ nl.

Definition Versions (s : Schema) : list string :=
  strings.Split (schema s) (separator (magic s)).

(** ** The database collaborator

    [database/sql] and the SQLite driver are outside the package.  The
    connection is a state that every call may change; [committed] is the
    content of the database file, [working] the content the open
    transaction sees.  A call reports a driver error or succeeds; what
    decides (a syntax error, a full disk, a cancelled [context.Context])
    is part of the connection state. *)

Record Driver : Type := mkDriver {
  Conn : Type;
  Image : Type;
  drv_error : Type;
  drv_message : drv_error -> string;
  committed : Conn -> Image;
  working : Conn -> Image;
  user_version : Image -> Z;
  drv_Begin : Conn -> option drv_error * Conn;
  drv_QueryInt : string -> Conn -> (drv_error + Z) * Conn;
  drv_Exec : string -> Conn -> option drv_error * Conn;
  drv_Commit : Conn -> option drv_error * Conn;
  drv_Rollback : Conn -> option drv_error * Conn
}.

(** [strconv.Itoa], as [fmt] prints an [int] operand. *)
Definition Itoa (n : Z) : string := NilZero.string_of_int (Z.to_int n).

(** [fmt.Sprintln("PRAGMA user_version =", n)]: the operands separated by
    a space, then a line feed. *)
Definition Sprintln_user_version (n : Z) : string :=
  "PRAGMA user_version =" ++ " " ++ Itoa n ++ nl.

(** Length of a slice, as Go's [len] returns it. *)
Definition lenl {A : Type} (l : list A) : Z := Z.of_nat (List.length l).

Section Migration.

Variable D : Driver.

(** An error of [database/sql]: [sql.ErrTxDone], or what the driver
    reported. *)
Inductive sql_error : Type :=
| ErrTxDone
| DriverError (e : drv_error D).

Definition sql_message (e : sql_error) : string :=
  match e with
  | ErrTxDone => "sql: transaction has already been committed or rolled back"
  | DriverError e => drv_message D e
  end.

(** The five [fmt.Errorf] values of [Migrate]; each wraps its cause. *)
Inductive MigrateError : Type :=
| CannotBegin (cause : sql_error)
| CannotGetUserVersion (cause : sql_error)
| CannotApply (i : Z) (cause : sql_error)
| CannotSetUserVersion (cause : sql_error)
| CannotCommit (cause : sql_error).

Definition Unwrap (e : MigrateError) : sql_error :=
  match e with
  | CannotBegin c | CannotGetUserVersion c | CannotApply _ c
  | CannotSetUserVersion c | CannotCommit c => c
  end.

Definition Error (e : MigrateError) : string :=
  match e with
  | CannotBegin c => "cannot begin transaction: " ++ sql_message c
  | CannotGetUserVersion c =>
      "cannot get PRAGMA user_version: " ++ sql_message c
  | CannotApply i c =>
      "cannot apply migration " ++ Itoa i ++ " (from 0th): " ++ sql_message c
  | CannotSetUserVersion c =>
      "cannot set PRAGMA user_version: " ++ sql_message c
  | CannotCommit c => "cannot commit new migrations: " ++ sql_message c
  end.

(** How a call of [Migrate] ends: it returns [nil] or an error, or the
    index expression [versions[i]] panics (index [i] out of range for
    length [n]). *)
Inductive Outcome : Type :=
| Return (err : option MigrateError)
| Panic (i n : Z).

(** The calls [Migrate] makes on the database, one constructor per call
    site, each with what the call returned. *)
Inductive Event : Type :=
| EvBegin (r : option sql_error)
| EvReadVersion (r : sql_error + Z)
| EvApply (i : Z) (body : string) (r : option sql_error)
| EvWriteVersion (n : Z) (r : option sql_error)
| EvCommit (r : option sql_error)
| EvRollback (r : option sql_error).

(** A [*sql.Tx]: the connection it holds and whether it has been
    committed or rolled back, with the calls made so far. *)
Record Tx : Type := mkTx {
  conn : Conn D;
  done : bool;
  log : list Event
}.

Definition lift_err (r : option (drv_error D)) : option sql_error :=
  option_map DriverError r.

(** [db.Begin()]: an error and the connection as the failed call left
    it, or a transaction on the connection. *)
Definition DB_Begin (db : Conn D) : (sql_error * Conn D) + Tx :=
  match drv_Begin D db with
  | (Some e, db') => inl (DriverError e, db')
  | (None, db') => inr (mkTx db' false [EvBegin None])
  end.

(** The body of a function that holds a transaction: it changes the
    transaction and either goes on with a value or leaves the function
    ([return], or a panic). *)
Definition M (A : Type) : Type := Tx -> (A + Outcome) * Tx.

Definition ret {A : Type} (a : A) : M A := fun tx => (inl a, tx).

Definition exit {A : Type} (o : Outcome) : M A := fun tx => (inr o, tx).

Definition bind {A B : Type} (m : M A) (k : A -> M B) : M B :=
  fun tx =>
    match m tx with
    | (inl a, tx') => k a tx'
    | (inr o, tx') => (inr o, tx')
    end.

Notation "x <- m ;; k" := (bind m (fun x => k))
  (at level 61, m at next level, right associativity).

Definition record (ev : Event) : M unit :=
  fun tx => (inl tt, mkTx (conn tx) (done tx) (log tx ++ [ev])).

(** [tx.QueryRowContext(ctx, q).Scan(&v)] with [v] an [int].  After
    Commit or Rollback every operation on the transaction fails with
    [ErrTxDone]. *)
Definition Tx_QueryRowInt (q : string) : M (sql_error + Z) :=
  fun tx =>
    if done tx then (inl (inl ErrTxDone), tx)
    else match drv_QueryInt D q (conn tx) with
         | (inl e, c) => (inl (inl (DriverError e)), mkTx c false (log tx))
         | (inr v, c) => (inl (inr v), mkTx c false (log tx))
         end.

(** [tx.ExecContext(ctx, stmt)]. *)
Definition Tx_ExecContext (stmt : string) : M (option sql_error) :=
  fun tx =>
    if done tx then (inl (Some ErrTxDone), tx)
    else match drv_Exec D stmt (conn tx) with
         | (r, c) => (inl (lift_err r), mkTx c false (log tx))
         end.

(** [tx.Commit()]: the transaction is done whatever the driver
    answers. *)
Definition Tx_Commit : M (option sql_error) :=
  fun tx =>
    if done tx then (inl (Some ErrTxDone), tx)
    else match drv_Commit D (conn tx) with
         | (r, c) => (inl (lift_err r), mkTx c true (log tx))
         end.

(** [tx.Rollback()]. *)
Definition Tx_Rollback : M (option sql_error) :=
  fun tx =>
    if done tx then (inl (Some ErrTxDone), tx)
    else match drv_Rollback D (conn tx) with
         | (r, c) => (inl (lift_err r), mkTx c true (log tx))
         end.

(** [versions[i]]: a run-time panic when [i] is out of range. *)
Definition index (versions : list string) (i : Z) : M string :=
  if (i <? 0) || (lenl versions <=? i)
  then exit (Panic i (lenl versions))
  else ret (nth (Z.to_nat i) versions "").

(** [for i := v; i < len(versions); i++ { ... }].  [k] is
    [len(versions) - i], the number of rounds left: the loop condition
    holds exactly when [k] is a successor. *)
Fixpoint apply_loop (k : nat) (versions : list string) (i : Z) : M unit :=
  match k with
  | O => ret tt
  | S k' =>
      body <- index versions i ;;
      r <- Tx_ExecContext body ;;
      _ <- record (EvApply i body r) ;;
      match r with
      | Some e => exit (Return (Some (CannotApply i e)))
      | None => apply_loop k' versions (i + 1)
      end
  end.

(** [Schema.Migrate] from the [defer] statement to the last [return]. *)
Definition Migrate_body (s : Schema) : M Outcome :=
  r <- Tx_QueryRowInt "PRAGMA user_version" ;;
  _ <- record (EvReadVersion r) ;;
  match r with
  | inl e => exit (Return (Some (CannotGetUserVersion e)))
  | inr v =>
      let versions := Versions s in
      if v >=? lenl versions then exit (Return None)
      else
        _ <- apply_loop (Z.to_nat (lenl versions - v)) versions v ;;
        r <- Tx_ExecContext (Sprintln_user_version (lenl versions)) ;;
        _ <- record (EvWriteVersion (lenl versions) r) ;;
        match r with
        | Some e => exit (Return (Some (CannotSetUserVersion e)))
        | None =>
            r <- Tx_Commit ;;
            _ <- record (EvCommit r) ;;
            match r with
            | Some e => exit (Return (Some (CannotCommit e)))
            | None => ret (Return None)
            end
        end
  end.

(** [defer tx.Rollback()]: run when the function leaves, by [return] or
    by a panic; its result is dropped. *)
Definition deferred_Rollback (tx : Tx) : Tx :=
  snd ((r <- Tx_Rollback ;; record (EvRollback r)) tx).

(** What one call of [Migrate] leaves behind: how it ended, the calls
    it made in order, whether its transaction was begun and is done,
    and the connection afterwards. *)
Record Run : Type := mkRun {
  outcome : Outcome;
  trace : list Event;
  handle : option bool;
  after : Conn D
}.

(** [func (s *Schema) Migrate(ctx context.Context, db *sql.DB) error]. *)
Definition Schema_Migrate (s : Schema) (db : Conn D) : Run :=
  match DB_Begin db with
  | inl (e, db') =>
      mkRun (Return (Some (CannotBegin e))) [EvBegin (Some e)] None db'
  | inr tx =>
      let (r, tx1) := Migrate_body s tx in
      let tx2 := deferred_Rollback tx1 in
      mkRun (match r with inl o => o | inr o => o end)
            (log tx2) (Some (done tx2)) (conn tx2)
  end.

(** The package-level [func Migrate(ctx, db, schema) error]. *)
Definition Migrate (db : Conn D) (schema : string) : Run :=
  Schema_Migrate (NewSchema schema) db.

Definition is_read (ev : Event) : bool :=
  match ev with EvReadVersion _ => true | _ => false end.

Definition is_write (ev : Event) : bool :=
  match ev with EvWriteVersion _ _ => true | _ => false end.

(** A commit or a rollback that reached the driver, that is, one that
    did not stop at [ErrTxDone]. *)
Definition performed (r : option sql_error) : bool :=
  match r with Some ErrTxDone => false | _ => true end.

Definition commits (ev : Event) : bool :=
  match ev with EvCommit r => performed r | _ => false end.

Definition rolls_back (ev : Event) : bool :=
  match ev with EvRollback r => performed r | _ => false end.

Definition is_rollback (ev : Event) : bool :=
  match ev with EvRollback _ => true | _ => false end.

(** The indices [v, v+1, ...] paired with the elements of a slice. *)
Fixpoint indexed (v : Z) (l : list string) : list (Z * string) :=
  match l with
  | [] => []
  | x :: l' => (v, x) :: indexed (v + 1) l'
  end.

(** [versions[v:]] with the index of each body, for [0 <= v]. *)
Definition pending (versions : list string) (v : Z) : list (Z * string) :=
  indexed v (skipn (Z.to_nat v) versions).

Definition is_apply (ev : Event) : bool :=
  match ev with EvApply _ _ _ => true | _ => false end.

(** The call of line 71 for a body that was applied. *)
Definition apply_ok (b : Z * string) : Event := EvApply (fst b) (snd b) None.

(** The loop of [Migrate] seen from the driver: the bodies are executed
    one after the other until one fails. *)
Fixpoint run_bodies (bodies : list (Z * string)) (c : Conn D)
  : list Event * option MigrateError * Conn D :=
  match bodies with
  | [] => ([], None, c)
  | (i, body) :: rest =>
      match drv_Exec D body c with
      | (Some e, c') =>
          ([EvApply i body (Some (DriverError e))],
           Some (CannotApply i (DriverError e)), c')
      | (None, c') =>
          let '(evs, r, c'') := run_bodies rest c' in
          (EvApply i body None :: evs, r, c'')
      end
  end.

(** The exit paths of [Migrate], each with the driver calls that lead to
    it and the run it leaves. *)
Inductive ExitPath (s : Schema) (db : Conn D) : Run -> Prop :=
| Exit_begin_failed : forall e db',
    drv_Begin D db = (Some e, db') ->
    ExitPath s db
      (mkRun (Return (Some (CannotBegin (DriverError e))))
             [EvBegin (Some (DriverError e))] None db')
| Exit_read_failed : forall c0 e c1 rr c2,
    drv_Begin D db = (None, c0) ->
    drv_QueryInt D "PRAGMA user_version" c0 = (inl e, c1) ->
    drv_Rollback D c1 = (rr, c2) ->
    ExitPath s db
      (mkRun (Return (Some (CannotGetUserVersion (DriverError e))))
             [EvBegin None; EvReadVersion (inl (DriverError e));
              EvRollback (lift_err rr)]
             (Some true) c2)
| Exit_up_to_date : forall c0 v c1 rr c2,
    drv_Begin D db = (None, c0) ->
    drv_QueryInt D "PRAGMA user_version" c0 = (inr v, c1) ->
    lenl (Versions s) <= v ->
    drv_Rollback D c1 = (rr, c2) ->
    ExitPath s db
      (mkRun (Return None)
             [EvBegin None; EvReadVersion (inr v); EvRollback (lift_err rr)]
             (Some true) c2)
| Exit_panic : forall c0 v c1 rr c2,
    drv_Begin D db = (None, c0) ->
    drv_QueryInt D "PRAGMA user_version" c0 = (inr v, c1) ->
    v < 0 ->
    drv_Rollback D c1 = (rr, c2) ->
    ExitPath s db
      (mkRun (Panic v (lenl (Versions s)))
             [EvBegin None; EvReadVersion (inr v); EvRollback (lift_err rr)]
             (Some true) c2)
| Exit_apply_failed : forall c0 v c1 evs err c2 rr c3,
    drv_Begin D db = (None, c0) ->
    drv_QueryInt D "PRAGMA user_version" c0 = (inr v, c1) ->
    0 <= v < lenl (Versions s) ->
    run_bodies (pending (Versions s) v) c1 = (evs, Some err, c2) ->
    drv_Rollback D c2 = (rr, c3) ->
    ExitPath s db
      (mkRun (Return (Some err))
             ([EvBegin None; EvReadVersion (inr v)] ++ evs
              ++ [EvRollback (lift_err rr)])
             (Some true) c3)
| Exit_write_failed : forall c0 v c1 evs c2 e c3 rr c4,
    drv_Begin D db = (None, c0) ->
    drv_QueryInt D "PRAGMA user_version" c0 = (inr v, c1) ->
    0 <= v < lenl (Versions s) ->
    run_bodies (pending (Versions s) v) c1 = (evs, None, c2) ->
    drv_Exec D (Sprintln_user_version (lenl (Versions s))) c2 = (Some e, c3) ->
    drv_Rollback D c3 = (rr, c4) ->
    ExitPath s db
      (mkRun (Return (Some (CannotSetUserVersion (DriverError e))))
             ([EvBegin None; EvReadVersion (inr v)] ++ evs
              ++ [EvWriteVersion (lenl (Versions s)) (Some (DriverError e));
                  EvRollback (lift_err rr)])
             (Some true) c4)
| Exit_commit_failed : forall c0 v c1 evs c2 c3 e c4,
    drv_Begin D db = (None, c0) ->
    drv_QueryInt D "PRAGMA user_version" c0 = (inr v, c1) ->
    0 <= v < lenl (Versions s) ->
    run_bodies (pending (Versions s) v) c1 = (evs, None, c2) ->
    drv_Exec D (Sprintln_user_version (lenl (Versions s))) c2 = (None, c3) ->
    drv_Commit D c3 = (Some e, c4) ->
    ExitPath s db
      (mkRun (Return (Some (CannotCommit (DriverError e))))
             ([EvBegin None; EvReadVersion (inr v)] ++ evs
              ++ [EvWriteVersion (lenl (Versions s)) None;
                  EvCommit (Some (DriverError e));
                  EvRollback (Some ErrTxDone)])
             (Some true) c4)
| Exit_success : forall c0 v c1 evs c2 c3 c4,
    drv_Begin D db = (None, c0) ->
    drv_QueryInt D "PRAGMA user_version" c0 = (inr v, c1) ->
    0 <= v < lenl (Versions s) ->
    run_bodies (pending (Versions s) v) c1 = (evs, None, c2) ->
    drv_Exec D (Sprintln_user_version (lenl (Versions s))) c2 = (None, c3) ->
    drv_Commit D c3 = (None, c4) ->
    ExitPath s db
      (mkRun (Return None)
             ([EvBegin None; EvReadVersion (inr v)] ++ evs
              ++ [EvWriteVersion (lenl (Versions s)) None; EvCommit None;
                  EvRollback (Some ErrTxDone)])
             (Some true) c4).

(** ** What the package relies on in the database

    The contract of a transactional engine with a scalar register: a
    transaction starts from the committed content; nothing but a
    successful commit changes the committed content, and that commit
    installs what the transaction sees; the register is read by
    [PRAGMA user_version] and written by [PRAGMA user_version = n]. *)
Record Transactional : Prop := mkTransactional {
  begin_keeps : forall c r c',
    drv_Begin D c = (r, c') -> committed D c' = committed D c;
  begin_snapshot : forall c c',
    drv_Begin D c = (None, c') -> working D c' = committed D c;
  query_keeps : forall q c r c',
    drv_QueryInt D q c = (r, c') -> committed D c' = committed D c;
  query_user_version : forall c v c',
    drv_QueryInt D "PRAGMA user_version" c = (inr v, c') ->
    v = user_version D (working D c);
  exec_keeps : forall stmt c r c',
    drv_Exec D stmt c = (r, c') -> committed D c' = committed D c;
  exec_user_version : forall n c c',
    drv_Exec D (Sprintln_user_version n) c = (None, c') ->
    user_version D (working D c') = n;
  commit_installs : forall c c',
    drv_Commit D c = (None, c') -> committed D c' = working D c;
  commit_failure_keeps : forall c e c',
    drv_Commit D c = (Some e, c') -> committed D c' = committed D c;
  rollback_keeps : forall c r c',
    drv_Rollback D c = (r, c') -> committed D c' = committed D c
}.

End Migration.

Arguments ErrTxDone {D}.
Arguments DriverError {D} e.
Arguments CannotBegin {D} cause.
Arguments CannotGetUserVersion {D} cause.
Arguments CannotApply {D} i cause.
Arguments CannotSetUserVersion {D} cause.
Arguments CannotCommit {D} cause.
Arguments Return {D} err.
Arguments Panic {D} i n.
Arguments EvBegin {D} r.
Arguments EvReadVersion {D} r.
Arguments EvApply {D} i body r.
Arguments EvWriteVersion {D} n r.
Arguments EvCommit {D} r.
Arguments EvRollback {D} r.
Arguments outcome {D} r.
Arguments trace {D} r.
Arguments handle {D} r.
Arguments after {D} r.
Arguments is_read {D} ev.
Arguments is_write {D} ev.
Arguments is_apply {D} ev.
Arguments is_rollback {D} ev.
Arguments commits {D} ev.
Arguments rolls_back {D} ev.
Arguments performed {D} r.
Arguments run_bodies {D} bodies c.
Arguments apply_ok {D} b.
Arguments ExitPath {D} s db _.
Arguments Schema_Migrate {D} s db.
Arguments Migrate {D} db schema.

(** ** A small engine to run the package on

    The content is the list of statements applied so far and the
    register.  A statement that starts with [INVALID] is a syntax error;
    [PRAGMA user_version = n] sets the register; anything else is
    applied.  [Faults] switches on the failures that do not depend on
    the statement. *)
Module memdb.

Record Image : Type := mkImage { tables : list string; version : Z }.

Record Faults : Type := mkFaults {
  begin_fails : bool;
  read_fails : bool;
  write_fails : bool;
  commit_fails : bool
}.

Record Conn : Type := mkConn { disk : Image; txn : Image; faults : Faults }.

Definition no_faults : Faults := mkFaults false false false false.

(** A database file with the given register and no transaction open. *)
Definition fresh (v : Z) (f : Faults) : Conn :=
  mkConn (mkImage [] v) (mkImage [] v) f.

Definition parse_user_version (stmt : string) : option Z :=
  let p := "PRAGMA user_version = " in
  if prefix p stmt then
    let rest := drop (String.length p) stmt in
    let k := (String.length rest - 1)%nat in
    if String.eqb (drop k rest) nl
    then option_map Z.of_int (NilZero.int_of_string (take k rest))
    else None
  else None.

Definition Begin (c : Conn) : option string * Conn :=
  if begin_fails (faults c) then (Some "database is locked", c)
  else (None, mkConn (disk c) (disk c) (faults c)).

Definition QueryInt (q : string) (c : Conn) : (string + Z) * Conn :=
  if String.eqb q "PRAGMA user_version" then
    if read_fails (faults c) then (inl "disk I/O error", c)
    else (inr (version (txn c)), c)
  else (inl "not an integer query", c).

Definition Exec (stmt : string) (c : Conn) : option string * Conn :=
  match parse_user_version stmt with
  | Some n =>
      if write_fails (faults c) then (Some "disk I/O error", c)
      else (None, mkConn (disk c) (mkImage (tables (txn c)) n) (faults c))
  | None =>
      if prefix "INVALID" stmt then (Some "syntax error", c)
      else (None, mkConn (disk c)
                    (mkImage (tables (txn c) ++ [stmt]) (version (txn c)))
                    (faults c))
  end.

Definition Commit (c : Conn) : option string * Conn :=
  if commit_fails (faults c) then (Some "database or disk is full", c)
  else (None, mkConn (txn c) (txn c) (faults c)).

Definition Rollback (c : Conn) : option string * Conn :=
  (None, mkConn (disk c) (disk c) (faults c)).

Definition driver : Driver :=
  mkDriver Conn Image string (fun e => e) disk txn version
           Begin QueryInt Exec Commit Rollback.

End memdb.

(** ** Segments, as the specification words the split

    [occurs sub s]: [sub] is a substring of [s].  [Segments sep body vs]:
    [vs] are the pieces of [body] cut at the occurrences of [sep], taken
    from the left: the first piece ends where [sep] first occurs, the
    rest of the pieces are those of what follows that occurrence, and a
    body without [sep] is its own single piece. *)
Definition occurs (sub s : string) : Prop :=
  exists l r, s = l ++ sub ++ r.

Inductive Segments (sep : string) : string -> list string -> Prop :=
| Segments_whole : forall body,
    ~ occurs sep body -> Segments sep body [body]
| Segments_cut : forall p rest vs,
    (forall l r, p ++ sep ++ rest = l ++ sep ++ r ->
                 (String.length p <= String.length l)%nat) ->
    Segments sep rest vs ->
    Segments sep (p ++ sep ++ rest) (p :: vs).

(** What [strings.Index] answers: -1 when [sub] does not occur, else the
    length of what precedes the first occurrence. *)
Inductive IndexSpec (s sub : string) : Z -> Prop :=
| Index_absent : ~ occurs sub s -> IndexSpec s sub (-1)
| Index_found : forall p r,
    s = p ++ sub ++ r ->
    (forall l r', s = l ++ sub ++ r' ->
                  (String.length p <= String.length l)%nat) ->
    IndexSpec s sub (len p).

(** ** Schemas and databases to run

    A schema of two versions and a schema whose second version is not
    valid SQL. *)
Definition two_versions : string :=
  "CREATE TABLE t(x INT);" ++ nl ++ Delimiter ++ nl
  ++ "ALTER TABLE t ADD COLUMN y INT;".

Definition broken : string :=
  "CREATE TABLE t(x INT);" ++ nl ++ Delimiter ++ nl ++ "INVALID;".

(** A database file with no table and the given counter. *)
Definition database (v : Z) : Conn memdb.driver :=
  memdb.fresh v memdb.no_faults.

(** * Proofs *)

(** ** Byte strings *)

Lemma length_append (a b : string) :
  String.length (a ++ b) = (String.length a + String.length b)%nat.
Proof. induction a as [|c a IH]; simpl; [reflexivity | now rewrite IH]. Qed.

Lemma append_assoc (a b c : string) : (a ++ b) ++ c = a ++ b ++ c.
Proof. induction a as [|x a IH]; simpl; [reflexivity | now rewrite IH]. Qed.

Lemma take_append (p r : string) : take (String.length p) (p ++ r) = p.
Proof. induction p as [|x p IH]; simpl; [now destruct r | now rewrite IH]. Qed.

Lemma drop_append (p r : string) : drop (String.length p) (p ++ r) = r.
Proof. induction p as [|x p IH]; simpl; [now destruct r | exact IH]. Qed.

(** Two ways to cut the same string: the shorter left part is a prefix
    of the longer one. *)
Lemma append_eq_append (l y p x : string) :
  l ++ y = p ++ x -> (String.length l <= String.length p)%nat ->
  exists d, p = l ++ d /\ y = d ++ x.
Proof.
  revert p. induction l as [|c l IH]; intros p H Hle.
  - exists p. split; [reflexivity | exact H].
  - destruct p as [|c' p]; simpl in Hle; [lia|].
    simpl in H. injection H as -> H.
    destruct (IH p H ltac:(lia)) as [d [-> ->]].
    exists d. split; reflexivity.
Qed.

Lemma prefix_append (a r : string) : prefix a (a ++ r) = true.
Proof.
  induction a as [|c a IH]; simpl; [now destruct r|].
  destruct (ascii_dec c c); [exact IH | congruence].
Qed.

Lemma prefix_inv (a s : string) : prefix a s = true -> exists r, s = a ++ r.
Proof.
  revert s. induction a as [|c a IH]; intros s H.
  - exists s. reflexivity.
  - destruct s as [|c' s]; simpl in H; [discriminate|].
    destruct (ascii_dec c c') as [->|]; [|discriminate].
    destruct (IH s H) as [r ->]. exists r. reflexivity.
Qed.

Lemma occurs_cons (sub : string) (c : ascii) (s : string) :
  occurs sub s -> occurs sub (String c s).
Proof. intros [l [r ->]]. exists (String c l), r. reflexivity. Qed.

(** ** [strings.Index] finds the first occurrence *)

Lemma Index_unfold (s sub : string) :
  strings.Index s sub =
  if prefix sub s then 0
  else match s with
       | EmptyString => -1
       | String _ s' =>
           if strings.Index s' sub <? 0 then -1 else strings.Index s' sub + 1
       end.
Proof. destruct s; reflexivity. Qed.

Lemma Index_spec (s sub : string) : IndexSpec s sub (strings.Index s sub).
Proof.
  induction s as [|c s IH]; rewrite Index_unfold.
  - destruct (prefix sub "") eqn:Hp.
    + destruct (prefix_inv _ _ Hp) as [r Hr].
      apply (Index_found _ _ "" r); [exact Hr | intros; simpl; lia].
    + apply Index_absent. intros [l [r H]].
      destruct l; [|discriminate]. simpl in H.
      rewrite H, prefix_append in Hp. discriminate.
  - destruct (prefix sub (String c s)) eqn:Hp.
    + destruct (prefix_inv _ _ Hp) as [r Hr].
      apply (Index_found _ _ "" r); [exact Hr | intros; simpl; lia].
    + assert (Hhead : forall r, String c s <> sub ++ r).
      { intros r H. rewrite H, prefix_append in Hp. discriminate. }
      destruct IH as [Habs | p r Hs Hfirst].
      * simpl. apply Index_absent. intros [l [r H]].
        destruct l as [|c' l]; [now apply (Hhead r)|].
        simpl in H. injection H as _ H. apply Habs. now exists l, r.
      * assert ((len p <? 0) = false) as -> by (apply Z.ltb_ge; unfold len; lia).
        replace (len p + 1) with (len (String c p))
          by (unfold len; simpl String.length; lia).
        apply (Index_found _ _ (String c p) r); [simpl; now rewrite Hs|].
        intros l r' H. destruct l as [|c' l]; [now destruct (Hhead r')|].
        simpl in H. injection H as _ H. simpl. apply Hfirst in H. lia.
Qed.


Lemma Index_absent_eq (s sub : string) :
  ~ occurs sub s -> strings.Index s sub = -1.
Proof.
  intros Habs. destruct (Index_spec s sub) as [_ | p r Hs _]; [reflexivity|].
  exfalso. apply Habs. now exists p, r.
Qed.

Lemma Index_first_eq (p sub r : string) :
  (forall l r', p ++ sub ++ r = l ++ sub ++ r' ->
                (String.length p <= String.length l)%nat) ->
  strings.Index (p ++ sub ++ r) sub = len p.
Proof.
  intros Hfirst.
  destruct (Index_spec (p ++ sub ++ r) sub) as [Habs | p' r' Hs Hfirst'].
  - exfalso. apply Habs. now exists p, r.
  - apply Hfirst in Hs. specialize (Hfirst' p r eq_refl). unfold len. lia.
Qed.

Lemma occurs_Index (s sub : string) :
  occurs sub s <-> strings.Index s sub <> -1.
Proof.
  split.
  - intros Hocc. destruct (Index_spec s sub) as [Habs | p r _ _].
    + contradiction.
    + unfold len. lia.
  - intros Hne. destruct (Index_spec s sub) as [Habs | p r Hs _].
    + congruence.
    + now exists p, r.
Qed.

Lemma slice_to_prefix (p r : string) : slice_to (p ++ r) (len p + 0) = p.
Proof.
  unfold slice_to, len. rewrite Z.add_0_r, Nat2Z.id. apply take_append.
Qed.

Lemma slice_from_suffix (p sub r : string) :
  slice_from (p ++ sub ++ r) (len p + len sub) = r.
Proof.
  unfold slice_from, len. rewrite <- Nat2Z.inj_add, Nat2Z.id.
  rewrite <- append_assoc, <- length_append. apply drop_append.
Qed.

(** ** The loops of [strings.Split] against [Segments] *)

Lemma genSplit_loop_Segments (sep s : string) (vs : list string) :
  Segments sep s vs ->
  forall k, (List.length vs <= S k)%nat ->
            strings.genSplit_loop k s sep 0 = vs.
Proof.
  induction 1 as [body Habs | p rest vs Hfirst Hseg IH]; intros k Hk.
  - destruct k; simpl; [reflexivity|].
    now rewrite (Index_absent_eq _ _ Habs).
  - destruct k as [|k]; simpl in Hk; [destruct Hseg; simpl in Hk; lia|].
    simpl. rewrite (Index_first_eq _ _ _ Hfirst).
    assert ((len p <? 0) = false) as -> by (apply Z.ltb_ge; unfold len; lia).
    rewrite slice_to_prefix, slice_from_suffix, IH by lia. reflexivity.
Qed.

Lemma Count_loop_Segments (sep s : string) (vs : list string) :
  Segments sep s vs ->
  forall fuel n, (List.length vs <= fuel)%nat ->
                 strings.Count_loop fuel s sep n = n + (lenl vs - 1).
Proof.
  induction 1 as [body Habs | p rest vs Hfirst Hseg IH]; intros fuel n Hk.
  - destruct fuel; simpl in Hk; [lia|]. cbn [strings.Count_loop].
    rewrite (Index_absent_eq _ _ Habs). unfold lenl. simpl. lia.
  - destruct fuel as [|fuel]; simpl in Hk; [lia|].
    cbn [strings.Count_loop]. rewrite (Index_first_eq _ _ _ Hfirst).
    assert ((len p =? -1) = false) as -> by (apply Z.eqb_neq; unfold len; lia).
    rewrite slice_from_suffix, IH by lia.
    unfold lenl. change (List.length (p :: vs)) with (S (List.length vs)). lia.
Qed.

Lemma Segments_length (sep s : string) (vs : list string) :
  sep <> "" -> Segments sep s vs ->
  (1 <= List.length vs <= S (String.length s))%nat.
Proof.
  intros Hsep. induction 1 as [body Habs | p rest vs Hfirst Hseg IH].
  - simpl. lia.
  - simpl. rewrite !length_append.
    destruct sep; [congruence|]. simpl String.length. lia.
Qed.

Lemma Segments_total (sep : string) :
  sep <> "" -> forall s, exists vs, Segments sep s vs.
Proof.
  intros Hsep s.
  remember (String.length s) as n eqn:Hn.
  revert s Hn. induction n as [n IH] using lt_wf_ind. intros s Hn.
  destruct (Index_spec s sep) as [Habs | p r Hs Hfirst].
  - exists [s]. now constructor.
  - destruct (IH (String.length r)) with (s := r) as [vs Hvs].
    + subst n s. rewrite !length_append.
      destruct sep; [congruence|]. simpl String.length. lia.
    + reflexivity.
    + exists (p :: vs). subst s. constructor; assumption.
Qed.

Lemma Segments_functional (sep s : string) (vs vs' : list string) :
  Segments sep s vs -> Segments sep s vs' -> vs = vs'.
Proof.
  intros H H'.
  rewrite <- (genSplit_loop_Segments _ _ _ H (List.length vs + List.length vs'))
    by lia.
  apply genSplit_loop_Segments; [exact H' | lia].
Qed.

(** With a non-empty [substr] the loop of [Count] has left through
    [i == -1] within [length s + 1] rounds: more rounds change nothing. *)
Lemma Count_loop_fuel (s substr : string) (fuel : nat) :
  substr <> "" -> (S (String.length s) <= fuel)%nat ->
  strings.Count_loop fuel s substr 0 = strings.Count s substr.
Proof.
  intros Hsep Hfuel. unfold strings.Count.
  destruct (String.eqb_spec substr ""); [contradiction|].
  destruct (Segments_total substr Hsep s) as [vs Hvs].
  pose proof (Segments_length _ _ _ Hsep Hvs).
  rewrite !(Count_loop_Segments _ _ _ Hvs) by lia. reflexivity.
Qed.

Lemma Split_Segments (s sep : string) (vs : list string) :
  sep <> "" -> Segments sep s vs -> strings.Split s sep = vs.
Proof.
  intros Hsep Hvs. pose proof (Segments_length _ _ _ Hsep Hvs) as Hlen.
  unfold strings.Split, strings.genSplit, strings.Count.
  destruct (String.eqb_spec sep ""); [contradiction|].
  change (-1 =? 0) with false. change (-1 <? 0) with true. cbv beta iota zeta.
  rewrite (Count_loop_Segments _ _ _ Hvs) by lia.
  assert ((len s + 1 <? 0 + (lenl vs - 1) + 1) = false) as ->
    by (apply Z.ltb_ge; unfold len, lenl; lia).
  apply genSplit_loop_Segments; [exact Hvs | unfold lenl; lia].
Qed.

Lemma separator_nonempty (magic : string) : separator magic <> "".
Proof. discriminate. Qed.

Lemma Versions_Segments (s : Schema) (vs : list string) :
  Segments (separator (magic s)) (schema s) vs <-> Versions s = vs.
Proof.
  split.
  - apply Split_Segments, separator_nonempty.
  - intros <-.
    destruct (Segments_total _ (separator_nonempty (magic s)) (schema s))
      as [vs Hvs].
    unfold Versions.
    now rewrite (Split_Segments _ _ _ (separator_nonempty (magic s)) Hvs).
Qed.


(** ** Splitting and joining *)

Lemma Segments_Join (sep s : string) (vs : list string) :
  Segments sep s vs -> strings.Join vs sep = s.
Proof.
  induction 1 as [body Habs | p rest vs Hfirst Hseg IH]; [reflexivity|].
  destruct vs as [|v vs]; [inversion Hseg|].
  change (p ++ sep ++ strings.Join (v :: vs) sep = p ++ sep ++ rest).
  now rewrite IH.
Qed.

(** When [x] followed by all of the separator but its last byte does not
    contain the separator, the separator that follows [x] is the first
    one. *)
Lemma first_occurrence (x sep' z R : string) :
  String.length z = 1%nat ->
  ~ occurs (sep' ++ z) (x ++ sep') ->
  forall l r, x ++ (sep' ++ z) ++ R = l ++ (sep' ++ z) ++ r ->
              (String.length x <= String.length l)%nat.
Proof.
  intros Hz Habs l r H.
  destruct (Nat.le_gt_cases (String.length x) (String.length l))
    as [Hle | Hlt]; [exact Hle | exfalso].
  symmetry in H.
  destruct (append_eq_append _ _ _ _ H ltac:(lia)) as [d [Hx Hd]].
  assert (Hlen : (1 <= String.length d)%nat)
    by (rewrite Hx, length_append in Hlt; lia).
  rewrite (append_assoc sep' z R), <- (append_assoc d sep') in Hd.
  destruct (append_eq_append _ _ _ _ Hd) as [d' [Hd' _]].
  { rewrite !length_append. lia. }
  apply Habs. exists l, d'. now rewrite Hx, append_assoc, Hd'.
Qed.

Lemma separator_assoc (magic : string) :
  separator magic = (nl ++ magic) ++ nl.
Proof. unfold separator. now rewrite append_assoc. Qed.

Lemma Join_Segments (magic : string) (strs : list string) :
  strs <> [] ->
  Forall (fun x => ~ occurs (separator magic) x) strs ->
  Forall (fun x => ~ occurs (separator magic) (x ++ nl ++ magic))
         (removelast strs) ->
  Segments (separator magic) (strings.Join strs (separator magic)) strs.
Proof.
  induction strs as [|x strs IH]; intros Hne Hall Hinit; [congruence|].
  destruct strs as [|y strs].
  - apply Segments_whole. now inversion Hall.
  - change (strings.Join (x :: y :: strs) (separator magic))
      with (x ++ separator magic ++ strings.Join (y :: strs) (separator magic)).
    change (removelast (x :: y :: strs)) with (x :: removelast (y :: strs))
      in Hinit.
    inversion Hall; inversion Hinit; subst.
    apply Segments_cut; [|apply IH; [discriminate | assumption | assumption]].
    rewrite separator_assoc in *.
    apply first_occurrence; [reflexivity | assumption].
Qed.

(** C2.  For every body and delimiter, [Versions] returns exactly the
    segments of the body cut at the occurrences of
    ["\n" + delimiter + "\n"], in order of appearance, the part before
    the first occurrence being version 0: the result satisfies
    [Segments], it is the only list that does, and joined again with the
    separator it gives the body back.  When the separator does not occur
    the result is the whole body alone.  [Versions] is a total function:
    it has a value, and only one, for every input. *)
Theorem Versions_splits_on_separator (s : Schema) :
  Segments (separator (magic s)) (schema s) (Versions s)
  /\ (forall vs, Segments (separator (magic s)) (schema s) vs ->
                 Versions s = vs)
  /\ strings.Join (Versions s) (separator (magic s)) = schema s
  /\ (~ occurs (separator (magic s)) (schema s) -> Versions s = [schema s]).
Proof.
  assert (H : Segments (separator (magic s)) (schema s) (Versions s))
    by now apply Versions_Segments.
  repeat split.
  - exact H.
  - intros vs Hvs. now apply Versions_Segments.
  - now apply Segments_Join.
  - intros Habs. apply Versions_Segments. now constructor.
Qed.

(** C6, as the code has it.  For every [n >= 1] strings, none containing
    the separator ["\n" + delimiter + "\n"] and none but the last
    containing it once ["\n" + delimiter] is put after the string,
    [Versions] of the strings joined with the separator is the list of
    the strings. *)
Theorem Versions_Join (magic : string) (strs : list string) :
  strs <> [] ->
  Forall (fun x => ~ occurs (separator magic) x) strs ->
  Forall (fun x => ~ occurs (separator magic) (x ++ nl ++ magic))
         (removelast strs) ->
  Versions (NewSchemaWithMagic (strings.Join strs (separator magic)) magic)
  = strs.
Proof.
  intros Hne Hall Hinit.
  apply (Versions_Segments
           (NewSchemaWithMagic (strings.Join strs (separator magic)) magic)).
  now apply Join_Segments.
Qed.

Lemma Versions_Join_witness :
  Versions (NewSchemaWithMagic
              (strings.Join ["CREATE TABLE t(x INT);";
                             "ALTER TABLE t ADD COLUMN y INT;"]
                            (separator Delimiter)) Delimiter)
  = ["CREATE TABLE t(x INT);"; "ALTER TABLE t ADD COLUMN y INT;"].
Proof.
  apply (Versions_Join Delimiter).
  - discriminate.
  - repeat constructor; intros H; apply occurs_Index in H; apply H;
      vm_compute; reflexivity.
  - repeat constructor; intros H; apply occurs_Index in H; apply H;
      vm_compute; reflexivity.
Defined.

(** C6 as stated fails: neither string contains the separator, yet the
    first one ends with the delimiter line, and the split cuts there. *)
Lemma Versions_Join_counterexample :
  Forall (fun x => ~ occurs (separator Delimiter) x)
         ["A" ++ nl ++ Delimiter; "B"]
  /\ Versions (NewSchemaWithMagic
                 (strings.Join ["A" ++ nl ++ Delimiter; "B"]
                               (separator Delimiter)) Delimiter)
     = ["A"; Delimiter ++ nl ++ "B"]
  /\ Versions (NewSchemaWithMagic
                 (strings.Join ["A" ++ nl ++ Delimiter; "B"]
                               (separator Delimiter)) Delimiter)
     <> ["A" ++ nl ++ Delimiter; "B"].
Proof.
  split; [|split].
  - repeat constructor; intros H; apply occurs_Index in H; apply H;
      vm_compute; reflexivity.
  - vm_compute. reflexivity.
  - vm_compute. discriminate.
Qed.

(** C9, as the code has it.  The default delimiter is a fixed string of
    79 bytes that begins and ends with a dash and contains the text
    [NEW VERSION]; [NewSchema] and the package-level [Migrate] use it. *)
Theorem Delimiter_shape :
  String.length Delimiter = 79%nat
  /\ (exists mid, Delimiter = "-" ++ mid ++ "-")
  /\ occurs "NEW VERSION" Delimiter
  /\ (forall schema, NewSchema schema = NewSchemaWithMagic schema Delimiter)
  /\ (forall D (db : Conn D) schema,
        Migrate db schema
        = Schema_Migrate (NewSchemaWithMagic schema Delimiter) db).
Proof.
  repeat split.
  - exists (take 77 (drop 1 Delimiter)). reflexivity.
  - exists (take 34 Delimiter), (drop 45 Delimiter). reflexivity.
Qed.

(** C9 as stated fails: the constant has 79 bytes, not 80. *)
Lemma Delimiter_length_counterexample : String.length Delimiter <> 80%nat.
Proof. discriminate. Qed.


(** When the delimiter has no line feed in it and does not occur in
    [x], the separator does not occur in [x] followed by a line feed and
    the delimiter. *)
Lemma delimiter_line_first (magic x : string) :
  ~ occurs nl magic -> ~ occurs magic x ->
  ~ occurs (separator magic) (x ++ nl ++ magic).
Proof.
  intros Hline Hx [l [r H]]. unfold separator in H.
  assert (Hlen : String.length x = (String.length l + 1 + String.length r)%nat).
  { apply (f_equal String.length) in H. rewrite !length_append in H.
    simpl in H. lia. }
  assert (H' : (l ++ nl) ++ magic ++ nl ++ r = x ++ nl ++ magic)
    by (rewrite H, !append_assoc; reflexivity).
  destruct (append_eq_append _ _ _ _ H') as [d [Hd Hrest]].
  { rewrite length_append. simpl. lia. }
  destruct (Nat.le_gt_cases (String.length magic) (String.length d))
    as [Hle | Hlt].
  - destruct (append_eq_append _ _ _ _ Hrest Hle) as [d' [Hd' _]].
    apply Hx. exists (l ++ nl), d'. now rewrite Hd, Hd'.
  - symmetry in Hrest.
    destruct (append_eq_append _ _ _ _ Hrest ltac:(lia)) as [e [He Hnl]].
    apply Hline. rewrite He.
    destruct e as [|c e].
    + rewrite He, length_append in Hlt. simpl in Hlt. lia.
    + simpl in Hnl. injection Hnl as <- _. now exists d, e.
Qed.

Lemma Versions_Join_lines (magic : string) (strs : list string) :
  strs <> [] -> ~ occurs nl magic ->
  Forall (fun x => ~ occurs magic x) strs ->
  Versions (NewSchemaWithMagic (strings.Join strs (separator magic)) magic)
  = strs.
Proof.
  intros Hne Hline Hall.
  apply (Versions_Segments
           (NewSchemaWithMagic (strings.Join strs (separator magic)) magic)).
  apply Join_Segments; [exact Hne | |].
  - apply Forall_impl with (2 := Hall). intros x Hx [l [r H]]. apply Hx.
    exists (l ++ nl), (nl ++ r). unfold separator in H.
    now rewrite H, !append_assoc.
  - assert (Hsub : Forall (fun x => ~ occurs magic x) (removelast strs)).
    { apply Forall_forall. intros x Hin.
      apply (proj1 (Forall_forall _ _) Hall).
      clear - Hin. induction strs as [|y [|z strs] IH]; simpl in *; tauto. }
    apply Forall_impl with (2 := Hsub). intros x Hx.
    now apply delimiter_line_first.
Qed.


(** ** The loop of [Migrate] *)

Lemma skipn_nth_cons {A : Type} (d : A) (l : list A) (n : nat) :
  (n < List.length l)%nat -> skipn n l = nth n l d :: skipn (S n) l.
Proof.
  revert n. induction l as [|x l IH]; intros n Hn; simpl in Hn; [lia|].
  destruct n as [|n]; [reflexivity|].
  change (skipn n l = nth n l d :: skipn (S n) l). apply IH. lia.
Qed.

Lemma pending_cons (versions : list string) (i : Z) :
  0 <= i < lenl versions ->
  pending versions i
  = (i, nth (Z.to_nat i) versions "") :: pending versions (i + 1).
Proof.
  intros Hi. unfold pending, lenl in *.
  rewrite (skipn_nth_cons "") by lia.
  replace (Z.to_nat (i + 1)) with (S (Z.to_nat i)) by lia. reflexivity.
Qed.

Lemma pending_end (versions : list string) (i : Z) :
  lenl versions <= i -> pending versions i = [].
Proof.
  intros Hi. unfold pending, lenl in *. rewrite skipn_all2 by lia. reflexivity.
Qed.

Section MigrationProofs.

Variable D : Driver.

Lemma apply_loop_run (versions : list string) (k : nat) :
  forall (i : Z) (tx : Tx D),
    0 <= i -> Z.of_nat k = lenl versions - i -> done D tx = false ->
    apply_loop D k versions i tx
    = let '(evs, r, c) := run_bodies (pending versions i) (conn D tx) in
      (match r with
       | None => inl tt
       | Some e => inr (Return (Some e))
       end, mkTx D c false (log D tx ++ evs)).
Proof.
  induction k as [|k IH]; intros i tx Hi Hk Hdone.
  - rewrite pending_end by lia. destruct tx as [c d l]. simpl in *. subst d.
    unfold ret. now rewrite app_nil_r.
  - rewrite pending_cons by lia. cbn [apply_loop run_bodies].
    unfold bind at 1. unfold index.
    assert (((i <? 0) || (lenl versions <=? i)) = false) as ->
      by (apply orb_false_iff; split; [apply Z.ltb_ge | apply Z.leb_gt]; lia).
    unfold ret at 1. unfold bind at 1. unfold Tx_ExecContext. rewrite Hdone.
    destruct (drv_Exec D (nth (Z.to_nat i) versions "") (conn D tx))
      as [[e|] c] eqn:Hexec.
    + reflexivity.
    + unfold bind, record. cbn [lift_err option_map conn done log].
      rewrite IH by (cbn [done]; lia || reflexivity). cbn [conn log].
      destruct (run_bodies (pending versions (i + 1)) c) as [[evs r] c'].
      now rewrite <- List.app_assoc.
Qed.

Lemma Schema_Migrate_exit (s : Schema) (db : Conn D) :
  ExitPath s db (Schema_Migrate s db).
Proof.
  unfold Schema_Migrate, DB_Begin.
  destruct (drv_Begin D db) as [[e|] c0] eqn:HB; [now constructor|].
  unfold Migrate_body, deferred_Rollback.
  unfold bind at 1. unfold Tx_QueryRowInt. cbn [done conn log].
  destruct (drv_QueryInt D "PRAGMA user_version" c0) as [[e|v] c1] eqn:HQ.
  - unfold bind, record, exit, Tx_Rollback. cbn.
    destruct (drv_Rollback D c1) as [rr c2] eqn:HR. cbn.
    now apply Exit_read_failed with c0 c1.
  - unfold bind at 1. unfold record at 1. cbn [done conn log].
    rewrite Z.geb_leb. destruct (lenl (Versions s) <=? v) eqn:Hcmp.
    + apply Z.leb_le in Hcmp.
      unfold bind, record, exit, Tx_Rollback. cbn.
      destruct (drv_Rollback D c1) as [rr c2] eqn:HR. cbn.
      now apply Exit_up_to_date with c0 c1.
    + apply Z.leb_gt in Hcmp.
      destruct (Z.ltb_spec v 0) as [Hneg | Hpos].
      * replace (Z.to_nat (lenl (Versions s) - v))
          with (S (Z.to_nat (lenl (Versions s) - v - 1))) by lia.
        cbn [apply_loop]. unfold bind at 1 2. unfold index.
        assert ((v <? 0) = true) as -> by (apply Z.ltb_lt; lia).
        unfold bind, record, exit, Tx_Rollback. cbn.
        destruct (drv_Rollback D c1) as [rr c2] eqn:HR. cbn.
        now apply Exit_panic with c0 c1.
      * unfold bind at 1. rewrite apply_loop_run by (cbn [done]; lia || reflexivity).
        cbn [conn log].
        destruct (run_bodies (pending (Versions s) v) c1)
          as [[evs [err|]] c2] eqn:Hrun.
        -- unfold bind, record, Tx_Rollback. cbn.
           destruct (drv_Rollback D c2) as [rr c3] eqn:HR. cbn.
           now apply Exit_apply_failed with c0 c1 c2.
        -- unfold bind at 1. unfold Tx_ExecContext. cbn [done conn log].
           destruct (drv_Exec D (Sprintln_user_version (lenl (Versions s))) c2)
             as [[e|] c3] eqn:HW.
           ++ unfold bind, record, exit, Tx_Rollback. cbn.
              destruct (drv_Rollback D c3) as [rr c4] eqn:HR. cbn.
              rewrite <- ?List.app_assoc. cbn [List.app].
              now apply Exit_write_failed with c0 c1 c2 c3.
           ++ unfold bind at 1. unfold record at 1. cbn [done conn log lift_err option_map].
              unfold bind at 1. unfold Tx_Commit. cbn [done conn log].
              destruct (drv_Commit D c3) as [[e|] c4] eqn:HC.
              ** unfold bind, record, exit, Tx_Rollback. cbn.
                 rewrite <- ?List.app_assoc. cbn [List.app].
                 now apply Exit_commit_failed with c0 c1 c2 c3.
              ** unfold bind, record, ret, Tx_Rollback. cbn.
                 rewrite <- ?List.app_assoc. cbn [List.app].
                 now apply Exit_success with c0 c1 c2 c3.
Qed.

End MigrationProofs.


Section Contract.

Variable D : Driver.
Hypothesis HT : Transactional D.

Lemma filter_all {A : Type} (f : A -> bool) (l : list A) :
  forallb f l = true -> filter f l = l.
Proof.
  induction l as [|x l IH]; [reflexivity|]. simpl. intros H.
  apply andb_prop in H as [-> H]. now rewrite IH.
Qed.

Lemma forallb_apply_ok (bs : list (Z * string)) :
  forallb is_apply (map (@apply_ok D) bs) = true.
Proof. induction bs as [|b bs IH]; [reflexivity | exact IH]. Qed.

(** What the loop leaves: every body applied, or the bodies before the
    first failure applied and the failing one reported with its index. *)
Lemma run_bodies_shape (bs : list (Z * string)) :
  forall c evs (r : option (MigrateError D)) c',
    run_bodies bs c = (evs, r, c') ->
    match r with
    | None => evs = map apply_ok bs
    | Some err =>
        exists pre i body e rest,
          bs = (pre ++ (i, body) :: rest)%list
          /\ evs = (map apply_ok pre
                    ++ [EvApply i body (Some (DriverError e))])%list
          /\ err = CannotApply i (DriverError e)
    end.
Proof.
  induction bs as [|[i body] bs IH]; intros c evs r c' H; simpl in H.
  - injection H as <- <- <-. reflexivity.
  - destruct (drv_Exec D body c) as [[e|] c1] eqn:Hexec.
    + injection H as <- <- <-.
      exists [], i, body, e, bs. repeat split.
    + destruct (run_bodies bs c1) as [[evs1 r1] c2] eqn:Hrun.
      injection H as <- <- <-. specialize (IH _ _ _ _ Hrun).
      destruct r1 as [err|].
      * destruct IH as (pre & j & b & e & rest & -> & -> & ->).
        exists ((i, body) :: pre), j, b, e, rest. repeat split.
      * subst evs1. reflexivity.
Qed.

Lemma run_bodies_keeps (bs : list (Z * string)) :
  forall c evs r c',
    run_bodies bs c = (evs, r, c') -> committed D c' = committed D c.
Proof.
  induction bs as [|[i body] bs IH]; intros c evs r c' H; simpl in H.
  - now injection H as <- <- <-.
  - destruct (drv_Exec D body c) as [[e|] c1] eqn:Hexec.
    + injection H as <- <- <-. eapply exec_keeps; eauto.
    + destruct (run_bodies bs c1) as [[evs1 r1] c2] eqn:Hrun.
      injection H as <- <- <-.
      rewrite (IH _ _ _ _ Hrun). eapply exec_keeps; eauto.
Qed.

Lemma run_bodies_only_applies (bs : list (Z * string)) :
  forall c (evs : list (Event D)) r c',
    run_bodies bs c = (evs, r, c') -> forallb is_apply evs = true.
Proof.
  induction bs as [|[i body] bs IH]; intros c evs r c' H; simpl in H.
  - now injection H as <- <- <-.
  - destruct (drv_Exec D body c) as [[e|] c1] eqn:Hexec.
    + now injection H as <- <- <-.
    + destruct (run_bodies bs c1) as [[evs1 r1] c2] eqn:Hrun.
      injection H as <- <- <-. simpl. eapply IH; eauto.
Qed.

Lemma filter_applies (f : Event D -> bool) (evs : list (Event D)) :
  (forall i body r, f (EvApply i body r) = false) ->
  forallb is_apply evs = true -> filter f evs = [].
Proof.
  intros Hf. induction evs as [|ev evs IH]; [reflexivity|].
  simpl. intros H. apply andb_prop in H as [Hev Hevs].
  destruct ev; try discriminate. rewrite Hf. auto.
Qed.

Lemma existsb_applies (f : Event D -> bool) (evs : list (Event D)) :
  (forall i body r, f (EvApply i body r) = false) ->
  forallb is_apply evs = true -> existsb f evs = false.
Proof.
  intros Hf. induction evs as [|ev evs IH]; [reflexivity|].
  simpl. intros H. apply andb_prop in H as [Hev Hevs].
  destruct ev; try discriminate. rewrite Hf. auto.
Qed.

(** The counter a transaction reads is the stored one. *)
Lemma read_is_stored (db c0 c1 : Conn D) (v : Z) :
  drv_Begin D db = (None, c0) ->
  drv_QueryInt D "PRAGMA user_version" c0 = (inr v, c1) ->
  v = user_version D (committed D db).
Proof.
  intros HB HQ. rewrite (query_user_version D HT _ _ _ HQ).
  now rewrite (begin_snapshot D HT _ _ HB).
Qed.

(** Every exit path but the successful commit leaves the committed
    content alone; the successful one stores the number of versions. *)
Lemma ExitPath_stored (s : Schema) (db : Conn D) (r : Run D) :
  ExitPath s db r ->
  (committed D (after r) = committed D db /\ outcome r <> Return None)
  \/ (committed D (after r) = committed D db /\ outcome r = Return None
      /\ lenl (Versions s) <= user_version D (committed D db)
      /\ filter is_apply (trace r) = [])
  \/ (outcome r = Return None
      /\ 0 <= user_version D (committed D db) < lenl (Versions s)
      /\ user_version D (committed D (after r)) = lenl (Versions s)
      /\ filter is_apply (trace r)
         = map apply_ok
               (pending (Versions s) (user_version D (committed D db)))).
Proof.
  destruct 1 as [e db' HB | c0 e c1 rr c2 HB HQ HR | c0 v c1 rr c2 HB HQ Hv HR
                | c0 v c1 rr c2 HB HQ Hv HR
                | c0 v c1 evs err c2 rr c3 HB HQ Hv Hrun HR
                | c0 v c1 evs c2 e c3 rr c4 HB HQ Hv Hrun HW HR
                | c0 v c1 evs c2 c3 e c4 HB HQ Hv Hrun HW HC
                | c0 v c1 evs c2 c3 c4 HB HQ Hv Hrun HW HC ];
    cbn [after outcome trace].
  - left. split; [eapply begin_keeps; eauto | discriminate].
  - left. split; [|discriminate].
    rewrite (rollback_keeps D HT _ _ _ HR), (query_keeps D HT _ _ _ _ HQ).
    eapply begin_keeps; eauto.
  - right; left. rewrite <- (read_is_stored _ _ _ _ HB HQ).
    repeat split; [|exact Hv].
    rewrite (rollback_keeps D HT _ _ _ HR), (query_keeps D HT _ _ _ _ HQ).
    eapply begin_keeps; eauto.
  - left. split; [|discriminate].
    rewrite (rollback_keeps D HT _ _ _ HR), (query_keeps D HT _ _ _ _ HQ).
    eapply begin_keeps; eauto.
  - left. split; [|discriminate].
    rewrite (rollback_keeps D HT _ _ _ HR), (run_bodies_keeps _ _ _ _ _ Hrun),
      (query_keeps D HT _ _ _ _ HQ).
    eapply begin_keeps; eauto.
  - left. split; [|discriminate].
    rewrite (rollback_keeps D HT _ _ _ HR), (exec_keeps D HT _ _ _ _ HW),
      (run_bodies_keeps _ _ _ _ _ Hrun), (query_keeps D HT _ _ _ _ HQ).
    eapply begin_keeps; eauto.
  - left. split; [|discriminate].
    rewrite (commit_failure_keeps D HT _ _ _ HC), (exec_keeps D HT _ _ _ _ HW),
      (run_bodies_keeps _ _ _ _ _ Hrun), (query_keeps D HT _ _ _ _ HQ).
    eapply begin_keeps; eauto.
  - right; right. rewrite <- (read_is_stored _ _ _ _ HB HQ).
    repeat split; try lia.
    + rewrite (commit_installs D HT _ _ HC).
      apply (exec_user_version D HT _ _ _ HW).
    + pose proof (run_bodies_shape _ _ _ _ _ Hrun) as Hshape.
      cbn in Hshape. subst evs. cbn.
      rewrite filter_app, filter_all by apply forallb_apply_ok.
      cbn. apply List.app_nil_r.
Qed.

End Contract.


(** ** The small engine keeps the contract *)

Lemma Itoa_parses (n : Z) :
  option_map Z.of_int (NilZero.int_of_string (Itoa n)) = Some n.
Proof.
  unfold Itoa. rewrite NilZero.isi.
  - simpl. now rewrite DecimalZ.of_to.
  - destruct n; simpl; try discriminate.
    intros [= H]. now apply DecimalPos.Unsigned.to_uint_nonnil in H.
  - destruct n; simpl; try discriminate.
    intros [= H]. now apply DecimalPos.Unsigned.to_uint_nonnil in H.
Qed.

Lemma parse_Sprintln_user_version (n : Z) :
  memdb.parse_user_version (Sprintln_user_version n) = Some n.
Proof.
  unfold memdb.parse_user_version.
  change (Sprintln_user_version n)
    with ("PRAGMA user_version = " ++ (Itoa n ++ nl)).
  rewrite prefix_append, drop_append.
  replace (String.length (Itoa n ++ nl) - 1)%nat with (String.length (Itoa n))
    by (rewrite length_append; simpl; lia).
  rewrite drop_append, take_append. simpl (nl =? nl)%string. cbv iota.
  apply Itoa_parses.
Qed.

Lemma memdb_transactional : Transactional memdb.driver.
Proof.
  constructor; simpl.
  - intros c r c'. unfold memdb.Begin.
    destruct (memdb.begin_fails _); now intros [= <- <-].
  - intros c c'. unfold memdb.Begin.
    destruct (memdb.begin_fails _); [discriminate | now intros [= <-]].
  - intros q c r c'. unfold memdb.QueryInt.
    destruct (q =? _)%string; [destruct (memdb.read_fails _)|];
      now intros [= <- <-].
  - intros c v c'. unfold memdb.QueryInt. simpl.
    destruct (memdb.read_fails _); [discriminate | now intros [= <- <-]].
  - intros stmt c r c'. unfold memdb.Exec.
    destruct (memdb.parse_user_version stmt);
      [destruct (memdb.write_fails _) | destruct (prefix "INVALID" stmt)];
      now intros [= <- <-].
  - intros n c c'. unfold memdb.Exec.
    rewrite parse_Sprintln_user_version.
    destruct (memdb.write_fails _); [discriminate | now intros [= <-]].
  - intros c c'. unfold memdb.Commit.
    destruct (memdb.commit_fails _); [discriminate | now intros [= <-]].
  - intros c e c'. unfold memdb.Commit.
    destruct (memdb.commit_fails _); [now intros [= <- <-] | discriminate].
  - intros c r c'. unfold memdb.Rollback. now intros [= <- <-].
Qed.


(** ** Claims about [Migrate] *)

(** Case analysis on the exit path of a call. *)
Ltac exit_paths s db :=
  generalize (Schema_Migrate_exit _ s db);
  generalize (Schema_Migrate s db);
  let r := fresh "r" in
  let HE := fresh "HE" in
  intros r HE;
  destruct HE as [ex dbx HB | c0' ex c1' rr c2' HB HQ HR
                 | c0' v' c1' rr c2' HB HQ Hv HR
                 | c0' v' c1' rr c2' HB HQ Hv HR
                 | c0' v' c1' evs err c2' rr c3' HB HQ Hv Hrun HR
                 | c0' v' c1' evs c2' ex c3' rr c4' HB HQ Hv Hrun HW HR
                 | c0' v' c1' evs c2' c3' ex c4' HB HQ Hv Hrun HW HC
                 | c0' v' c1' evs c2' c3' c4' HB HQ Hv Hrun HW HC ];
  cbn [after outcome trace handle].

(** Two results of the same driver call are the same result. *)
Ltac same_call :=
  repeat match goal with
         | H1 : ?f = (_, _), H2 : ?f = (_, _) |- _ =>
             rewrite H1 in H2; inversion H2; subst; clear H2
         end.

Section Claims.

Variable D : Driver.

Lemma indexed_nth (l : list string) :
  forall (v : Z) (k : nat) (i : Z) (body : string),
    nth_error (indexed v l) k = Some (i, body) ->
    i = v + Z.of_nat k /\ nth_error l k = Some body.
Proof.
  induction l as [|x l IH]; intros v k i body H.
  - destruct k; discriminate.
  - destruct k as [|k]; simpl in H.
    + injection H as <- <-. split; [lia | reflexivity].
    + apply IH in H as [-> H]. split; [lia | exact H].
Qed.

(** The [k]-th pending body is [versions[v+k]]: the loop goes up the
    indices one by one. *)
Lemma pending_nth (versions : list string) (v : Z) (k : nat) (i : Z)
      (body : string) :
  0 <= v ->
  nth_error (pending versions v) k = Some (i, body) ->
  i = v + Z.of_nat k /\ nth_error versions (Z.to_nat i) = Some body.
Proof.
  intros Hv H. unfold pending in H. apply indexed_nth in H as [-> H].
  split; [reflexivity|]. rewrite nth_error_skipn in H.
  now replace (Z.to_nat (v + Z.of_nat k)) with (Z.to_nat v + k)%nat by lia.
Qed.

(** With a counter [0 <= v < len(versions)] the calls of line 71 are one
    per pending body, in order, up to and including the first that fails;
    after a failure nothing else is applied and the error carries the
    index and the cause. *)
Lemma Migrate_applies_pending (s : Schema) (db c0 c1 : Conn D) (v : Z) :
  drv_Begin D db = (None, c0) ->
  drv_QueryInt D "PRAGMA user_version" c0 = (inr v, c1) ->
  0 <= v < lenl (Versions s) ->
  (filter is_apply (trace (Schema_Migrate s db))
   = map apply_ok (pending (Versions s) v)
   /\ forall i cause,
       outcome (Schema_Migrate s db) <> Return (Some (CannotApply i cause)))
  \/ (exists pre i body e rest,
        pending (Versions s) v = (pre ++ (i, body) :: rest)%list
        /\ filter is_apply (trace (Schema_Migrate s db))
           = (map apply_ok pre ++ [EvApply i body (Some (DriverError e))])%list
        /\ outcome (Schema_Migrate s db)
           = Return (Some (CannotApply i (DriverError e)))
        /\ Unwrap D (CannotApply i (DriverError e)) = DriverError e).
Proof.
  intros HB0 HQ0 Hv0. exit_paths s db; same_call; try lia.
  - right. pose proof (run_bodies_shape D _ _ _ _ _ Hrun) as Hshape.
    destruct Hshape as (pre & i & body & e & rest & Hp & -> & ->).
    exists pre, i, body, e, rest. repeat split; [exact Hp|].
    cbn. rewrite !filter_app, filter_all by apply forallb_apply_ok.
    cbn. apply List.app_nil_r.
  - left. pose proof (run_bodies_shape D _ _ _ _ _ Hrun) as Hshape.
    cbn in Hshape. subst evs. split; [|discriminate].
    cbn. rewrite !filter_app, filter_all by apply forallb_apply_ok.
    cbn. apply List.app_nil_r.
  - left. pose proof (run_bodies_shape D _ _ _ _ _ Hrun) as Hshape.
    cbn in Hshape. subst evs. split; [|discriminate].
    cbn. rewrite !filter_app, filter_all by apply forallb_apply_ok.
    cbn. apply List.app_nil_r.
  - left. pose proof (run_bodies_shape D _ _ _ _ _ Hrun) as Hshape.
    cbn in Hshape. subst evs. split; [|discriminate].
    cbn. rewrite !filter_app, filter_all by apply forallb_apply_ok.
    cbn. apply List.app_nil_r.
Qed.

(** A negative counter: [versions[v]] panics before anything is
    applied. *)
Lemma Migrate_negative_counter (s : Schema) (db c0 c1 : Conn D) (v : Z) :
  drv_Begin D db = (None, c0) ->
  drv_QueryInt D "PRAGMA user_version" c0 = (inr v, c1) ->
  v < 0 ->
  outcome (Schema_Migrate s db) = Panic v (lenl (Versions s))
  /\ filter is_apply (trace (Schema_Migrate s db)) = [].
Proof.
  intros HB0 HQ0 Hv0. exit_paths s db; same_call; try lia.
  - pose proof (Zle_0_nat (List.length (Versions s))). unfold lenl in *. lia.
  - split; reflexivity.
Qed.

End Claims.



(** What a successful call has stored and applied. *)
Lemma Migrate_success_stored (D : Driver) (HT : Transactional D)
        (s : Schema) (db : Conn D) :
  outcome (Schema_Migrate s db) = Return None ->
  user_version D (committed D (after (Schema_Migrate s db)))
  = Z.max (user_version D (committed D db)) (lenl (Versions s))
  /\ filter is_apply (trace (Schema_Migrate s db))
     = map apply_ok (pending (Versions s) (user_version D (committed D db))).
Proof.
  intros Hok.
  destruct (ExitPath_stored D HT s db _ (Schema_Migrate_exit D s db))
    as [[_ H] | [(Hkeep & _ & Hv & Htr) | (_ & Hv & Hlen & Htr)]].
  - contradiction.
  - rewrite Hkeep, Htr, pending_end by exact Hv. split; [lia | reflexivity].
  - rewrite Hlen, Htr. split; [lia | reflexivity].
Qed.

(** C3, as the code has it.  If [Migrate] returns [nil], the counter is
    the larger of its value before the call and the number of versions
    (a counter above the number of versions is left as it is), and the
    calls of line 71 are one successful call for each version body from
    the starting counter up to the number of versions, in order. *)
Theorem Migrate_success_counter (D : Driver) (HT : Transactional D)
        (s : Schema) (db : Conn D) :
  outcome (Schema_Migrate s db) = Return None ->
  user_version D (committed D (after (Schema_Migrate s db)))
  = Z.max (user_version D (committed D db)) (lenl (Versions s))
  /\ filter is_apply (trace (Schema_Migrate s db))
     = map apply_ok (pending (Versions s) (user_version D (committed D db))).
Proof. exact (Migrate_success_stored D HT s db). Qed.

(** What a call does on a database whose stored counter is not below
    the number of versions: nothing is applied or written, whatever the
    driver answers, and the call returns [nil] once the transaction has
    begun and the counter has been read. *)
Lemma Migrate_noop (D : Driver) (HT : Transactional D) (s : Schema)
      (db : Conn D) :
  lenl (Versions s) <= user_version D (committed D db) ->
  filter is_apply (trace (Schema_Migrate s db)) = []
  /\ filter is_write (trace (Schema_Migrate s db)) = []
  /\ committed D (after (Schema_Migrate s db)) = committed D db
  /\ (forall c0 v c1,
         drv_Begin D db = (None, c0) ->
         drv_QueryInt D "PRAGMA user_version" c0 = (inr v, c1) ->
         outcome (Schema_Migrate s db) = Return None
         /\ exists rr, trace (Schema_Migrate s db)
                       = [EvBegin None; EvReadVersion (inr v); EvRollback rr]).
Proof.
  intros Hv0.
  pose proof (Zle_0_nat (List.length (Versions s))) as Hlen.
  unfold lenl in Hv0.
  exit_paths s db;
    try (pose proof (read_is_stored D HT _ _ _ _ HB HQ) as Hread;
         unfold lenl in *; lia).
  - split; [reflexivity | split; [reflexivity | split]].
    + eapply begin_keeps; eauto.
    + intros c0 v c1 HB0. congruence.
  - split; [reflexivity | split; [reflexivity | split]].
    + rewrite (rollback_keeps D HT _ _ _ HR), (query_keeps D HT _ _ _ _ HQ).
      eapply begin_keeps; eauto.
    + intros c0 v c1 HB0 HQ0. same_call.
  - split; [reflexivity | split; [reflexivity | split]].
    + rewrite (rollback_keeps D HT _ _ _ HR), (query_keeps D HT _ _ _ _ HQ).
      eapply begin_keeps; eauto.
    + intros c0 v c1 HB0 HQ0. same_call.
      split; [reflexivity | eexists; reflexivity].
Qed.

(** C4.  On a database whose stored counter is at least the number of
    versions a call applies no version body, does not write the counter
    and leaves the committed content as it was; once its transaction has
    begun and the counter has been read it returns [nil] at once, after
    these two calls and the deferred rollback only.  Hence after a call
    that returned [nil], a second call with the same schema executes no
    statement, leaves the counter unchanged, and returns [nil]. *)
Theorem Migrate_up_to_date (D : Driver) (HT : Transactional D)
        (s : Schema) (db : Conn D) :
  (lenl (Versions s) <= user_version D (committed D db) ->
   filter is_apply (trace (Schema_Migrate s db)) = []
   /\ filter is_write (trace (Schema_Migrate s db)) = []
   /\ committed D (after (Schema_Migrate s db)) = committed D db
   /\ (forall c0 v c1,
          drv_Begin D db = (None, c0) ->
          drv_QueryInt D "PRAGMA user_version" c0 = (inr v, c1) ->
          outcome (Schema_Migrate s db) = Return None
          /\ exists rr, trace (Schema_Migrate s db)
                        = [EvBegin None; EvReadVersion (inr v); EvRollback rr]))
  /\ (outcome (Schema_Migrate s db) = Return None ->
      filter is_apply (trace (Schema_Migrate s (after (Schema_Migrate s db))))
      = []
      /\ filter is_write
           (trace (Schema_Migrate s (after (Schema_Migrate s db)))) = []
      /\ committed D (after (Schema_Migrate s (after (Schema_Migrate s db))))
         = committed D (after (Schema_Migrate s db))
      /\ (forall c0 v c1,
             drv_Begin D (after (Schema_Migrate s db)) = (None, c0) ->
             drv_QueryInt D "PRAGMA user_version" c0 = (inr v, c1) ->
             outcome (Schema_Migrate s (after (Schema_Migrate s db)))
             = Return None
             /\ exists rr,
                 trace (Schema_Migrate s (after (Schema_Migrate s db)))
                 = [EvBegin None; EvReadVersion (inr v); EvRollback rr])).
Proof.
  split.
  - apply Migrate_noop, HT.
  - intros Hok. apply (Migrate_noop D HT s).
    destruct (Migrate_success_stored D HT s db Hok) as [-> _]. lia.
Qed.


(** The calls of a run that reached the driver as a commit, and as a
    rollback. *)
Lemma Migrate_terminal_calls (D : Driver) (s : Schema) (db : Conn D) :
  (handle (Schema_Migrate s db) = None
   /\ existsb commits (trace (Schema_Migrate s db)) = false
   /\ existsb rolls_back (trace (Schema_Migrate s db)) = false)
  \/ (handle (Schema_Migrate s db) = Some true
      /\ existsb commits (trace (Schema_Migrate s db))
         = negb (existsb rolls_back (trace (Schema_Migrate s db)))).
Proof.
  exit_paths s db; [left; repeat split | right; split; [reflexivity|]..];
    cbn;
    try (pose proof (run_bodies_only_applies D _ _ _ _ _ Hrun) as Happ;
         rewrite !existsb_app, !(existsb_applies D _ evs)
           by (reflexivity || exact Happ); cbn);
    first [reflexivity | destruct rr; reflexivity].
Qed.

(** C8.  A call that begins its transaction leaves it done on every exit
    path, success, early return, error and panic alike, and the last
    thing it does is call [Rollback], once; when [Begin] fails there is
    no transaction.  No call has both a commit and a rollback reach the
    driver, and a call with a transaction has exactly one of them do so:
    the [Rollback] that follows a [Commit] stops at [ErrTxDone]. *)
Theorem Migrate_releases_transaction (D : Driver) (s : Schema) (db : Conn D) :
  (forall c0, drv_Begin D db = (None, c0) ->
              handle (Schema_Migrate s db) = Some true
              /\ exists evs rr,
                  trace (Schema_Migrate s db) = (evs ++ [EvRollback rr])%list
                  /\ existsb is_rollback evs = false)
  /\ (forall e db', drv_Begin D db = (Some e, db') ->
                    handle (Schema_Migrate s db) = None
                    /\ trace (Schema_Migrate s db)
                       = [EvBegin (Some (DriverError e))])
  /\ existsb commits (trace (Schema_Migrate s db))
     && existsb rolls_back (trace (Schema_Migrate s db)) = false
  /\ (handle (Schema_Migrate s db) = Some true ->
      xorb (existsb commits (trace (Schema_Migrate s db)))
           (existsb rolls_back (trace (Schema_Migrate s db))) = true).
Proof.
  split; [|split; [|split]].
  - intros c0 HB0. exit_paths s db; same_call; try discriminate;
      (split; [reflexivity|]).
    + exists [EvBegin None; EvReadVersion (inl (DriverError ex))], (lift_err D rr).
      split; reflexivity.
    + exists [EvBegin None; EvReadVersion (inr v')], (lift_err D rr).
      split; reflexivity.
    + exists [EvBegin None; EvReadVersion (inr v')], (lift_err D rr).
      split; reflexivity.
    + exists ([EvBegin None; EvReadVersion (inr v')] ++ evs)%list, (lift_err D rr).
      split; [now rewrite <- List.app_assoc|].
      cbn. apply existsb_applies; [reflexivity|].
      eapply run_bodies_only_applies; eauto.
    + exists ([EvBegin None; EvReadVersion (inr v')] ++ evs
              ++ [EvWriteVersion (lenl (Versions s)) (Some (DriverError ex))])%list,
        (lift_err D rr).
      split; [now rewrite <- !List.app_assoc|].
      cbn. rewrite existsb_app, (existsb_applies D _ evs); [reflexivity..|].
      eapply run_bodies_only_applies; eauto.
    + exists ([EvBegin None; EvReadVersion (inr v')] ++ evs
              ++ [EvWriteVersion (lenl (Versions s)) None;
                  EvCommit (Some (DriverError ex))])%list,
        (Some ErrTxDone).
      split; [now rewrite <- !List.app_assoc|].
      cbn. rewrite existsb_app, (existsb_applies D _ evs); [reflexivity..|].
      eapply run_bodies_only_applies; eauto.
    + exists ([EvBegin None; EvReadVersion (inr v')] ++ evs
              ++ [EvWriteVersion (lenl (Versions s)) None; EvCommit None])%list,
        (Some ErrTxDone).
      split; [now rewrite <- !List.app_assoc|].
      cbn. rewrite existsb_app, (existsb_applies D _ evs); [reflexivity..|].
      eapply run_bodies_only_applies; eauto.
  - intros e db' HB0. exit_paths s db; same_call; try discriminate.
    split; reflexivity.
  - destruct (Migrate_terminal_calls D s db) as [(_ & -> & ->) | (_ & ->)];
      [reflexivity | apply andb_negb_l].
  - intros Hh.
    destruct (Migrate_terminal_calls D s db) as [(Hn & _) | (_ & ->)];
      [congruence | apply xorb_negb_l || (destruct (existsb _ _); reflexivity)].
Qed.

(** C10.  [Versions] never returns the empty list, and for the empty
    schema it returns the one empty body.  So on a database whose
    counter is 0 a call with the empty schema, once the transaction has
    begun and the counter has been read, executes the empty body (one
    call of line 71, for index 0), and when it returns [nil] the counter
    is 1. *)
Theorem Versions_nonempty (D : Driver) (HT : Transactional D) :
  (forall s, (1 <= List.length (Versions s))%nat)
  /\ (forall magic, Versions (NewSchemaWithMagic "" magic) = [""])
  /\ (forall magic db c0 v c1,
         user_version D (committed D db) = 0 ->
         drv_Begin D db = (None, c0) ->
         drv_QueryInt D "PRAGMA user_version" c0 = (inr v, c1) ->
         (exists r, filter is_apply
                      (trace (Schema_Migrate (NewSchemaWithMagic "" magic) db))
                    = [EvApply 0 "" r])
         /\ (outcome (Schema_Migrate (NewSchemaWithMagic "" magic) db)
             = Return None ->
             filter is_apply
                    (trace (Schema_Migrate (NewSchemaWithMagic "" magic) db))
             = [EvApply 0 "" None]
             /\ user_version D
                  (committed D
                     (after (Schema_Migrate (NewSchemaWithMagic "" magic) db)))
                = 1)).
Proof.
  assert (Hempty : forall magic, Versions (NewSchemaWithMagic "" magic) = [""])
    by reflexivity.
  split; [|split; [exact Hempty|]].
  - intros s.
    apply (Segments_length (separator (magic s)) (schema s));
      [apply separator_nonempty | now apply Versions_Segments].
  - intros magic db c0 v c1 Hzero HB HQ.
    pose proof (read_is_stored D HT _ _ _ _ HB HQ) as Hv. rewrite Hzero in Hv.
    subst v. split.
    + destruct (Migrate_applies_pending D (NewSchemaWithMagic "" magic)
                                        db c0 c1 0 HB HQ)
        as [[Htr _] | (pre & i & body & e & rest & Hp & Htr & _)].
      * rewrite Hempty. cbv. split; [discriminate | reflexivity].
      * rewrite Htr, Hempty. eexists. reflexivity.
      * rewrite Htr. rewrite Hempty in Hp. cbn in Hp.
        destruct pre as [|p [|q pre]]; try discriminate.
        injection Hp as <- <- <-. eexists. reflexivity.
    + intros Hok.
      destruct (Migrate_success_stored D HT _ db Hok) as [-> ->].
      rewrite Hzero, Hempty. split; reflexivity.
Qed.

(** ** The claims on the small engine *)


Lemma Migrate_success_counter_witness :
  memdb.version
    (memdb.disk (after (Schema_Migrate (NewSchema two_versions) (database 0))))
  = 2
  /\ filter is_apply (trace (Schema_Migrate (NewSchema two_versions) (database 0)))
     = [EvApply 0 "CREATE TABLE t(x INT);" None;
        EvApply 1 "ALTER TABLE t ADD COLUMN y INT;" None].
Proof.
  apply (Migrate_success_counter memdb.driver memdb_transactional
                                 (NewSchema two_versions) (database 0)).
  vm_compute. reflexivity.
Defined.

(** C3 as stated fails: a counter above the number of versions is left
    as it is by a call that returns [nil]. *)
Lemma Migrate_success_counter_counterexample :
  outcome (Schema_Migrate (NewSchema two_versions) (database 5)) = Return None
  /\ memdb.version
       (memdb.disk (after (Schema_Migrate (NewSchema two_versions) (database 5))))
     = 5
  /\ lenl (Versions (NewSchema two_versions)) = 2.
Proof. vm_compute. repeat split. Qed.

Lemma Migrate_up_to_date_witness :
  filter is_apply
         (trace (Schema_Migrate (NewSchema two_versions)
                   (after (Schema_Migrate (NewSchema two_versions)
                                          (database 0)))))
  = []
  /\ filter is_write
            (trace (Schema_Migrate (NewSchema two_versions)
                      (after (Schema_Migrate (NewSchema two_versions)
                                             (database 0)))))
     = []
  /\ memdb.disk
       (after (Schema_Migrate (NewSchema two_versions)
                 (after (Schema_Migrate (NewSchema two_versions)
                                        (database 0)))))
     = memdb.disk (after (Schema_Migrate (NewSchema two_versions) (database 0)))
  /\ outcome (Schema_Migrate (NewSchema two_versions)
                (after (Schema_Migrate (NewSchema two_versions) (database 0))))
     = Return None.
Proof.
  destruct (proj2 (Migrate_up_to_date memdb.driver memdb_transactional
                     (NewSchema two_versions) (database 0)) eq_refl)
    as (Happ & Hwr & Hkeep & Hret).
  split; [exact Happ | split; [exact Hwr | split; [exact Hkeep|]]].
  apply (Hret (after (Schema_Migrate (NewSchema two_versions) (database 0)))
              2
              (after (Schema_Migrate (NewSchema two_versions) (database 0))));
    vm_compute; reflexivity.
Defined.

(** C5.  The code at a counter of -1: the transaction begins, the
    counter is read, [versions[-1]] panics, and no version body has been
    applied. *)
Theorem Migrate_negative_counter_panics :
  outcome (Schema_Migrate (NewSchema two_versions) (database (-1))) = Panic (-1) 2
  /\ trace (Schema_Migrate (NewSchema two_versions) (database (-1)))
     = [EvBegin None; EvReadVersion (inr (-1)); EvRollback None]
  /\ memdb.disk (after (Schema_Migrate (NewSchema two_versions) (database (-1))))
     = memdb.mkImage [] (-1).
Proof. vm_compute. repeat split. Qed.


Lemma Versions_nonempty_witness :
  (exists r, filter is_apply
               (trace (Schema_Migrate (NewSchemaWithMagic "" Delimiter)
                                      (database 0)))
             = [EvApply 0 "" r])
  /\ (outcome (Schema_Migrate (NewSchemaWithMagic "" Delimiter) (database 0))
      = Return None ->
      filter is_apply
             (trace (Schema_Migrate (NewSchemaWithMagic "" Delimiter)
                                    (database 0)))
      = [EvApply 0 "" None]
      /\ memdb.version
           (memdb.disk
              (after (Schema_Migrate (NewSchemaWithMagic "" Delimiter)
                                     (database 0))))
         = 1).
Proof.
  apply (proj2 (proj2 (Versions_nonempty memdb.driver memdb_transactional))
               Delimiter (database 0) (database 0) 0 (database 0));
    reflexivity.
Defined.

(** ** Scenarios *)

Example Versions_two_versions :
  Versions (NewSchema two_versions)
  = ["CREATE TABLE t(x INT);"; "ALTER TABLE t ADD COLUMN y INT;"].
Proof. vm_compute. reflexivity. Qed.

Example Versions_Join_nothing :
  Versions (NewSchema (strings.Join [] (separator Delimiter))) = [""].
Proof. reflexivity. Qed.

Example Split_leftmost : strings.Split "aXXXbXXc" "XX" = ["a"; "Xb"; "c"].
Proof. reflexivity. Qed.

Example Split_empty_separator : strings.Split "abc" "" = ["a"; "b"; "c"].
Proof. reflexivity. Qed.

Example Migrate_two_versions :
  outcome (Migrate (database 0) two_versions) = Return None
  /\ memdb.disk (after (Migrate (database 0) two_versions))
     = memdb.mkImage
         ["CREATE TABLE t(x INT);"; "ALTER TABLE t ADD COLUMN y INT;"] 2.
Proof. vm_compute. split; reflexivity. Qed.

Example Migrate_resumes :
  trace (Migrate (database 1) two_versions)
  = [EvBegin None; EvReadVersion (inr 1);
     EvApply 1 "ALTER TABLE t ADD COLUMN y INT;" None;
     EvWriteVersion 2 None; EvCommit None; EvRollback (Some ErrTxDone)].
Proof. vm_compute. reflexivity. Qed.

Example Migrate_commit_fails :
  outcome (@Migrate memdb.driver
                    (memdb.fresh 0 (memdb.mkFaults false false false true))
                    two_versions)
  = Return (Some (CannotCommit (@DriverError memdb.driver "database or disk is full")))
  /\ memdb.disk
       (after (@Migrate memdb.driver
                        (memdb.fresh 0 (memdb.mkFaults false false false true))
                        two_versions))
     = memdb.mkImage [] 0.
Proof. vm_compute. split; reflexivity. Qed.

Example Migrate_begin_fails :
  outcome (@Migrate memdb.driver
                    (memdb.fresh 0 (memdb.mkFaults true false false false))
                    two_versions)
  = Return (Some (CannotBegin (@DriverError memdb.driver "database is locked")))
  /\ trace (@Migrate memdb.driver
                     (memdb.fresh 0 (memdb.mkFaults true false false false))
                     two_versions)
     = [EvBegin (Some (@DriverError memdb.driver "database is locked"))].
Proof. vm_compute. split; reflexivity. Qed.

Example Migrate_read_fails :
  trace (@Migrate memdb.driver
                  (memdb.fresh 0 (memdb.mkFaults false true false false))
                  two_versions)
  = [EvBegin None; EvReadVersion (inl (@DriverError memdb.driver "disk I/O error"));
     EvRollback None].
Proof. vm_compute. reflexivity. Qed.

Example Migrate_write_fails :
  trace (@Migrate memdb.driver
                  (memdb.fresh 1 (memdb.mkFaults false false true false))
                  two_versions)
  = [EvBegin None; EvReadVersion (inr 1);
     EvApply 1 "ALTER TABLE t ADD COLUMN y INT;" None;
     EvWriteVersion 2 (Some (@DriverError memdb.driver "disk I/O error")); EvRollback None]
  /\ memdb.disk
       (after (@Migrate memdb.driver
                        (memdb.fresh 1 (memdb.mkFaults false false true false))
                        two_versions))
     = memdb.mkImage [] 1.
Proof. vm_compute. split; reflexivity. Qed.

Example Error_message :
  Error memdb.driver (CannotApply 1 (@DriverError memdb.driver "syntax error"))
  = "cannot apply migration 1 (from 0th): syntax error".
Proof. reflexivity. Qed.

(** * Further properties of the package *)

(** ** [Versions] *)

Lemma Segments_free (sep s : string) (vs : list string) :
  sep <> "" -> Segments sep s vs -> Forall (fun v => ~ occurs sep v) vs.
Proof.
  intros Hsep. induction 1 as [body Habs | p rest vs Hfirst Hseg IH].
  - constructor; [exact Habs | constructor].
  - constructor; [|exact IH]. intros [l [r Hp]].
    specialize (Hfirst l (r ++ sep ++ rest)).
    rewrite Hp, !append_assoc in Hfirst. specialize (Hfirst eq_refl).
    rewrite !length_append in Hfirst.
    destruct sep; [congruence|]. simpl in Hfirst. lia.
Qed.

(** X1.  No version body contains the separator: whatever the schema and
    the delimiter, the separator occurs in none of the strings that
    [Versions] returns. *)
Theorem Versions_free_of_separator (s : Schema) :
  Forall (fun v => ~ occurs (separator (magic s)) v) (Versions s).
Proof.
  apply (Segments_free _ (schema s)); [apply separator_nonempty|].
  now apply Versions_Segments.
Qed.

Lemma Join_length (sep : string) (vs : list string) :
  vs <> [] ->
  String.length (strings.Join vs sep)
  = (list_sum (map String.length vs)
     + (List.length vs - 1) * String.length sep)%nat.
Proof.
  induction vs as [|x vs IH]; intros Hne; [congruence|].
  destruct vs as [|y vs].
  - simpl. lia.
  - change (strings.Join (x :: y :: vs) sep)
      with (x ++ sep ++ strings.Join (y :: vs) sep).
    rewrite !length_append, IH by discriminate.
    simpl List.length. simpl map. simpl list_sum. lia.
Qed.

(** X2.  Every byte of the schema is in exactly one version or in one
    separator: the lengths of the versions and of the separators between
    them (each [len(magic) + 2] bytes) add up to the length of the
    schema. *)
Theorem Versions_lengths (s : Schema) :
  (list_sum (map String.length (Versions s))
   + (List.length (Versions s) - 1) * (String.length (magic s) + 2)
   = String.length (schema s))%nat.
Proof.
  assert (HS : Segments (separator (magic s)) (schema s) (Versions s))
    by now apply Versions_Segments.
  pose proof (Segments_length _ _ _ (separator_nonempty (magic s)) HS) as Hn.
  rewrite <- (f_equal String.length (Segments_Join _ _ _ HS)).
  rewrite Join_length by (intros E; rewrite E in Hn; simpl in Hn; lia).
  unfold separator. rewrite !length_append. simpl String.length. lia.
Qed.

Lemma append_empty (a : string) : a ++ "" = a.
Proof. induction a as [|c a IH]; simpl; [reflexivity | now rewrite IH]. Qed.

Lemma separator_has_magic (magic x : string) :
  occurs (separator magic) x -> occurs magic x.
Proof.
  intros [l [r H]]. exists (l ++ nl), (nl ++ r). unfold separator in H.
  now rewrite H, !append_assoc.
Qed.

Lemma separator_has_nl (magic x : string) :
  occurs (separator magic) x -> occurs nl x.
Proof.
  intros [l [r H]]. exists l, (magic ++ nl ++ r). unfold separator in H.
  now rewrite H, !append_assoc.
Qed.

(** X3.  A schema splits into more than one version exactly when the
    separator occurs in it.  So a schema without a line feed, or without
    the delimiter text, is a single version: the delimiter separates only
    when it stands between two line feeds. *)
Theorem Versions_single (s : Schema) :
  (occurs (separator (magic s)) (schema s)
   <-> (2 <= List.length (Versions s))%nat)
  /\ (~ occurs nl (schema s) -> Versions s = [schema s])
  /\ (~ occurs (magic s) (schema s) -> Versions s = [schema s]).
Proof.
  assert (Hone : ~ occurs (separator (magic s)) (schema s) ->
                 Versions s = [schema s]).
  { intros Habs. apply Versions_Segments. now constructor. }
  split; [split|split].
  - intros Hocc.
    assert (HS : Segments (separator (magic s)) (schema s) (Versions s))
      by now apply Versions_Segments.
    inversion HS as [body Habs Hb Hv | p rest vs Hfirst Hrest Hb Hv].
    + contradiction.
    + pose proof (Segments_length _ _ _ (separator_nonempty (magic s)) Hrest).
      simpl. lia.
  - intros Hlen.
    destruct (Index_spec (schema s) (separator (magic s))) as [Habs | p r Hs _].
    + rewrite (Hone Habs) in Hlen. simpl in Hlen. lia.
    + now exists p, r.
  - intros Hnl. apply Hone. intros H. apply Hnl. now apply separator_has_nl in H.
  - intros Hm. apply Hone. intros H. apply Hm. now apply separator_has_magic in H.
Qed.

(** One cut: when the separator does not occur in [p] followed by a line
    feed and the delimiter, the first version of [p ++ separator ++ rest]
    is [p] and the others are the versions of [rest]. *)
Lemma Versions_cut (magic p rest : string) :
  ~ occurs (separator magic) (p ++ nl ++ magic) ->
  Versions (NewSchemaWithMagic (p ++ separator magic ++ rest) magic)
  = p :: Versions (NewSchemaWithMagic rest magic).
Proof.
  intros Hp.
  apply (Versions_Segments
           (NewSchemaWithMagic (p ++ separator magic ++ rest) magic)).
  change (Segments (separator magic) (p ++ separator magic ++ rest)
                   (p :: Versions (NewSchemaWithMagic rest magic))).
  apply Segments_cut.
  - rewrite separator_assoc in *. now apply first_occurrence.
  - now apply (Versions_Segments (NewSchemaWithMagic rest magic)).
Qed.

Lemma short_no_occurrence (sub x : string) :
  (String.length x < String.length sub)%nat -> ~ occurs sub x.
Proof.
  intros Hlt [l [r H]]. apply (f_equal String.length) in H.
  rewrite !length_append in H. lia.
Qed.

(** X4.  The code does not reject a schema that starts with the
    separator: its version 0 is the empty string, followed by the
    versions of what comes after the separator. *)
Theorem Versions_leading_separator (magic rest : string) :
  Versions (NewSchemaWithMagic (separator magic ++ rest) magic)
  = "" :: Versions (NewSchemaWithMagic rest magic).
Proof.
  apply (Versions_cut magic "" rest). apply short_no_occurrence.
  unfold separator. simpl. rewrite !length_append. simpl. lia.
Qed.

(** A first occurrence stays the first one whatever follows it. *)
Lemma first_extends (sep p rest rest' : string) :
  (forall l r, p ++ sep ++ rest = l ++ sep ++ r ->
               (String.length p <= String.length l)%nat) ->
  forall l r, p ++ sep ++ rest' = l ++ sep ++ r ->
              (String.length p <= String.length l)%nat.
Proof.
  intros Hfirst l r H.
  destruct (Nat.le_gt_cases (String.length p) (String.length l))
    as [Hle | Hlt]; [exact Hle|].
  rewrite <- !append_assoc in H. symmetry in H.
  destruct (append_eq_append _ _ _ _ H) as [d [Hd _]].
  { rewrite !length_append. lia. }
  apply (Hfirst l (d ++ rest)).
  now rewrite <- !append_assoc, Hd, !append_assoc.
Qed.

Lemma Segments_append (magic new : string) :
  ~ occurs (separator magic) new ->
  forall body vs,
    Segments (separator magic) body vs ->
    ~ occurs (separator magic) (last vs "" ++ nl ++ magic) ->
    Segments (separator magic) (body ++ separator magic ++ new) (vs ++ [new]).
Proof.
  intros Hnew. induction 1 as [body Habs | p rest vs Hfirst Hseg IH];
    intros Hlast.
  - change (last [body] "") with body in Hlast.
    change ([body] ++ [new])%list with [body; new].
    apply Segments_cut; [|now constructor].
    rewrite separator_assoc in *. now apply first_occurrence.
  - assert (Hl : last (p :: vs) "" = last vs "")
      by (destruct Hseg; reflexivity).
    rewrite Hl in Hlast. specialize (IH Hlast).
    rewrite !append_assoc.
    change ((p :: vs) ++ [new])%list with (p :: (vs ++ [new]))%list.
    apply Segments_cut; [|exact IH].
    now apply first_extends with rest.
Qed.

(** X5.  Appending a version: when the new body does not contain the
    separator, and the last version so far followed by a line feed and
    the delimiter does not either, the versions of the schema extended by
    the separator and the new body are the old versions followed by the
    new body. *)
Theorem Versions_append (magic body new : string) :
  ~ occurs (separator magic) new ->
  ~ occurs (separator magic)
      (last (Versions (NewSchemaWithMagic body magic)) "" ++ nl ++ magic) ->
  Versions (NewSchemaWithMagic (body ++ separator magic ++ new) magic)
  = (Versions (NewSchemaWithMagic body magic) ++ [new])%list.
Proof.
  intros Hnew Hlast.
  apply (Versions_Segments
           (NewSchemaWithMagic (body ++ separator magic ++ new) magic)).
  change (Segments (separator magic) (body ++ separator magic ++ new)
                   (Versions (NewSchemaWithMagic body magic) ++ [new])).
  apply Segments_append; [exact Hnew | | exact Hlast].
  now apply (Versions_Segments (NewSchemaWithMagic body magic)).
Qed.

Lemma Versions_append_witness :
  Versions (NewSchemaWithMagic
              (two_versions ++ separator Delimiter
               ++ "CREATE INDEX i ON t(y);") Delimiter)
  = ["CREATE TABLE t(x INT);"; "ALTER TABLE t ADD COLUMN y INT;";
     "CREATE INDEX i ON t(y);"].
Proof.
  apply (Versions_append Delimiter two_versions "CREATE INDEX i ON t(y);");
    intros H; apply occurs_Index in H; apply H; vm_compute; reflexivity.
Defined.

(** ** [Migrate] *)

Lemma run_bodies_events (D : Driver) (bs : list (Z * string)) (c c' : Conn D)
      (evs : list (Event D)) (r : option (MigrateError D)) :
  run_bodies bs c = (evs, r, c') ->
  forall ev, In ev evs ->
             exists i body res, ev = EvApply i body res /\ In (i, body) bs.
Proof.
  intros Hrun ev Hin. pose proof (run_bodies_shape D _ _ _ _ _ Hrun) as Hshape.
  destruct r as [err|].
  - destruct Hshape as (pre & i & body & e & rest & -> & -> & _).
    apply in_app_or in Hin as [Hin | [<- | []]].
    + apply in_map_iff in Hin as [[j b] [<- Hin]].
      exists j, b, None. split; [reflexivity|]. apply in_or_app. now left.
    + exists i, body, (Some (DriverError e)). split; [reflexivity|].
      apply in_or_app. right. now left.
  - subst evs. apply in_map_iff in Hin as [[j b] [<- Hin]].
    exists j, b, None. split; [reflexivity | exact Hin].
Qed.

Lemma pending_in (versions : list string) (v i : Z) (body : string) :
  0 <= v -> In (i, body) (pending versions v) ->
  v <= i < lenl versions /\ nth_error versions (Z.to_nat i) = Some body.
Proof.
  intros Hv Hin. apply In_nth_error in Hin as [k Hk].
  destruct (pending_nth versions v k i body Hv Hk) as [-> Hnth].
  split; [|exact Hnth].
  assert (Hlt : (Z.to_nat (v + Z.of_nat k) < List.length versions)%nat)
    by (apply nth_error_Some; congruence).
  unfold lenl. lia.
Qed.

(** Membership in a trace: the calls written out are compared one by
    one, the calls of the loop are left. *)
Ltac in_trace H :=
  repeat (cbn [In app] in H;
          match type of H with
          | _ \/ _ => destruct H as [H | H]; [try discriminate|]
          | False => contradiction
          | In _ (_ ++ _) => apply in_app_or in H; destruct H as [H | H]
          end).

(** X6.  [Migrate] executes nothing but pending versions: every body it
    sends to the database, applied or failed, is the text of the version
    at its index, and that index is at or above the stored counter and
    below the number of versions.  A version below the counter is never
    executed again. *)
Theorem Migrate_never_reapplies (D : Driver) (HT : Transactional D)
        (s : Schema) (db : Conn D) (i : Z) (body : string)
        (r : option (sql_error D)) :
  In (EvApply i body r) (trace (Schema_Migrate s db)) ->
  user_version D (committed D db) <= i < lenl (Versions s)
  /\ nth_error (Versions s) (Z.to_nat i) = Some body.
Proof.
  exit_paths s db; intros Hin; in_trace Hin;
    rewrite <- (read_is_stored D HT _ _ _ _ HB HQ);
    destruct (run_bodies_events D _ _ _ _ _ Hrun _ Hin)
      as (j & b & res & [= -> -> ->] & Hpend);
    apply pending_in; assumption || lia.
Qed.

Lemma Migrate_never_reapplies_witness :
  In (EvApply 1 "ALTER TABLE t ADD COLUMN y INT;" None)
     (trace (Schema_Migrate (NewSchema two_versions) (database 1)))
  /\ (memdb.version (memdb.disk (database 1)) <= 1
      < lenl (Versions (NewSchema two_versions))
      /\ nth_error (Versions (NewSchema two_versions)) (Z.to_nat 1)
         = Some "ALTER TABLE t ADD COLUMN y INT;").
Proof.
  assert (Hin : In (EvApply 1 "ALTER TABLE t ADD COLUMN y INT;" None)
                   (trace (Schema_Migrate (NewSchema two_versions)
                                          (database 1))))
    by (vm_compute; tauto).
  split; [exact Hin|].
  exact (Migrate_never_reapplies memdb.driver memdb_transactional
           (NewSchema two_versions) (database 1) 1
           "ALTER TABLE t ADD COLUMN y INT;" None Hin).
Defined.

Lemma pending_app (vs more : list string) :
  pending (vs ++ more) (lenl vs) = indexed (lenl vs) more.
Proof.
  unfold pending, lenl. rewrite Nat2Z.id, skipn_app, skipn_all, Nat.sub_diag.
  reflexivity.
Qed.

(** X7.  Versions added to a schema: when the versions of the new schema
    are those of the old one followed by more, and the stored counter is
    the number of old versions, a call that returns [nil] has applied
    the added versions only, each once and in order, and has moved the
    counter by their number. *)
Theorem Migrate_extension (D : Driver) (HT : Transactional D)
        (s s' : Schema) (more : list string) (db : Conn D) :
  Versions s' = (Versions s ++ more)%list ->
  user_version D (committed D db) = lenl (Versions s) ->
  outcome (Schema_Migrate s' db) = Return None ->
  filter is_apply (trace (Schema_Migrate s' db))
  = map apply_ok (indexed (lenl (Versions s)) more)
  /\ user_version D (committed D (after (Schema_Migrate s' db)))
     = lenl (Versions s) + lenl more.
Proof.
  intros Hvs Hstored Hok.
  destruct (Migrate_success_stored D HT s' db Hok) as [-> ->].
  rewrite Hstored, Hvs, pending_app. split; [reflexivity|].
  unfold lenl. rewrite length_app. lia.
Qed.

Lemma Migrate_extension_witness :
  filter is_apply
         (trace (Schema_Migrate
                   (NewSchema (two_versions ++ separator Delimiter
                               ++ "CREATE INDEX i ON t(y);"))
                   (database 2)))
  = [EvApply 2 "CREATE INDEX i ON t(y);" None]
  /\ memdb.version
       (memdb.disk
          (after (Schema_Migrate
                    (NewSchema (two_versions ++ separator Delimiter
                                ++ "CREATE INDEX i ON t(y);"))
                    (database 2))))
     = 2 + 1.
Proof.
  apply (Migrate_extension memdb.driver memdb_transactional
           (NewSchema two_versions)
           (NewSchema (two_versions ++ separator Delimiter
                       ++ "CREATE INDEX i ON t(y);"))
           ["CREATE INDEX i ON t(y);"] (database 2));
    vm_compute; reflexivity.
Defined.

(** The exit paths exclude one another: a call has one run. *)
Lemma ExitPath_functional (D : Driver) (s : Schema) (db : Conn D)
      (r1 r2 : Run D) :
  ExitPath s db r1 -> ExitPath s db r2 -> r1 = r2.
Proof.
  pose proof (Zle_0_nat (List.length (Versions s))) as Hlen.
  destruct 1; destruct 1; same_call; unfold lenl in *; reflexivity || lia.
Qed.

(** The exit path depends on the schema through the number of versions
    and the versions from the stored counter on, and through nothing
    else. *)
Lemma ExitPath_ext (D : Driver) (HT : Transactional D) (s1 s2 : Schema)
      (db : Conn D) (r : Run D) :
  lenl (Versions s1) = lenl (Versions s2) ->
  pending (Versions s1) (user_version D (committed D db))
  = pending (Versions s2) (user_version D (committed D db)) ->
  ExitPath s1 db r -> ExitPath s2 db r.
Proof.
  intros Hlen Hpend.
  destruct 1 as [e db' HB | c0 e c1 rr c2 HB HQ HR | c0 v c1 rr c2 HB HQ Hv HR
                | c0 v c1 rr c2 HB HQ Hv HR
                | c0 v c1 evs err c2 rr c3 HB HQ Hv Hrun HR
                | c0 v c1 evs c2 e c3 rr c4 HB HQ Hv Hrun HW HR
                | c0 v c1 evs c2 c3 e c4 HB HQ Hv Hrun HW HC
                | c0 v c1 evs c2 c3 c4 HB HQ Hv Hrun HW HC ];
    try (pose proof (read_is_stored D HT _ _ _ _ HB HQ) as Hread;
         rewrite <- Hread in Hpend);
    rewrite ?Hlen, ?Hpend in *; econstructor; eauto.
Qed.

(** X8.  [Migrate] does not look at the versions already applied: two
    schemas with the same number of versions and the same versions from
    the stored counter on give the same run on the same database, calls
    and outcome alike. *)
Theorem Migrate_ignores_applied (D : Driver) (HT : Transactional D)
        (s1 s2 : Schema) (db : Conn D) :
  List.length (Versions s1) = List.length (Versions s2) ->
  skipn (Z.to_nat (user_version D (committed D db))) (Versions s1)
  = skipn (Z.to_nat (user_version D (committed D db))) (Versions s2) ->
  Schema_Migrate s1 db = Schema_Migrate s2 db.
Proof.
  intros Hlen Hskip.
  apply (ExitPath_functional D s2 db); [|apply Schema_Migrate_exit].
  apply (ExitPath_ext D HT s1 s2).
  - unfold lenl. now rewrite Hlen.
  - unfold pending. now rewrite Hskip.
  - apply Schema_Migrate_exit.
Qed.

Lemma Migrate_ignores_applied_witness :
  Schema_Migrate
    (NewSchema ("CREATE TABLE t(x INT, z INT);" ++ separator Delimiter
                ++ "ALTER TABLE t ADD COLUMN y INT;"))
    (database 1)
  = Schema_Migrate (NewSchema two_versions) (database 1).
Proof.
  apply (Migrate_ignores_applied memdb.driver memdb_transactional);
    vm_compute; reflexivity.
Defined.

(** X9.  [Migrate] panics exactly when the counter it reads is negative:
    with a stored counter of 0 or more every call returns, and a call
    that panics has read a negative counter [i], reports that index and
    the number of versions, has applied nothing, has had its deferred
    rollback reach the driver, and leaves the committed content as it
    was. *)
Theorem Migrate_panics_only_on_negative (D : Driver) (HT : Transactional D)
        (s : Schema) (db : Conn D) :
  (0 <= user_version D (committed D db) ->
   exists err, outcome (Schema_Migrate s db) = Return err)
  /\ (forall i n,
         outcome (Schema_Migrate s db) = Panic i n ->
         i = user_version D (committed D db) /\ i < 0
         /\ n = lenl (Versions s)
         /\ filter is_apply (trace (Schema_Migrate s db)) = []
         /\ existsb rolls_back (trace (Schema_Migrate s db)) = true
         /\ committed D (after (Schema_Migrate s db)) = committed D db).
Proof.
  split.
  - intros Hpos. exit_paths s db; try (eexists; reflexivity).
    pose proof (read_is_stored D HT _ _ _ _ HB HQ). lia.
  - intros i n. exit_paths s db; intros [= <- <-].
    rewrite <- (read_is_stored D HT _ _ _ _ HB HQ).
    repeat split; try assumption.
    + destruct rr; reflexivity.
    + rewrite (rollback_keeps D HT _ _ _ HR), (query_keeps D HT _ _ _ _ HQ).
      eapply begin_keeps; eauto.
Qed.

Lemma Migrate_panics_only_on_negative_witness :
  exists err, outcome (Schema_Migrate (NewSchema two_versions) (database 0))
              = Return err.
Proof.
  apply (proj1 (Migrate_panics_only_on_negative
                  memdb.driver memdb_transactional
                  (NewSchema two_versions) (database 0))).
  vm_compute. discriminate.
Defined.



(** X11.  The calls of a successful migration, in order: from a stored
    counter below the number of versions, a call that returns [nil] has
    begun the transaction, read the counter, applied each pending
    version once in ascending order, written the number of versions,
    committed, and last called the rollback that stops at
    [ErrTxDone]; it has made no other call. *)
Theorem Migrate_success_trace (D : Driver) (HT : Transactional D)
        (s : Schema) (db : Conn D) :
  outcome (Schema_Migrate s db) = Return None ->
  user_version D (committed D db) < lenl (Versions s) ->
  trace (Schema_Migrate s db)
  = ([EvBegin None; EvReadVersion (inr (user_version D (committed D db)))]
     ++ map apply_ok (pending (Versions s) (user_version D (committed D db)))
     ++ [EvWriteVersion (lenl (Versions s)) None; EvCommit None;
         EvRollback (Some ErrTxDone)])%list.
Proof.
  exit_paths s db; intros Hok Hlt; try discriminate;
    rewrite <- (read_is_stored D HT _ _ _ _ HB HQ) in *; [lia|].
  pose proof (run_bodies_shape D _ _ _ _ _ Hrun) as Hshape. cbn in Hshape.
  now subst evs.
Qed.

Lemma Migrate_success_trace_witness :
  trace (Schema_Migrate (NewSchema two_versions) (database 0))
  = [EvBegin None; EvReadVersion (inr 0);
     EvApply 0 "CREATE TABLE t(x INT);" None;
     EvApply 1 "ALTER TABLE t ADD COLUMN y INT;" None;
     EvWriteVersion 2 None; EvCommit None; EvRollback (Some ErrTxDone)].
Proof.
  apply (Migrate_success_trace memdb.driver memdb_transactional
           (NewSchema two_versions) (database 0));
    vm_compute; reflexivity.
Defined.

(** X12.  The counter is written only after every pending version has
    been applied, and the commit comes only after the counter has been
    written: a trace that holds the write of [n] has [n] the number of
    versions and, before the write, one successful call for each
    pending version and no failed one; a trace that holds a commit holds
    the successful write. *)
Theorem Migrate_write_after_bodies (D : Driver) (s : Schema) (db : Conn D) :
  (forall n r,
      In (EvWriteVersion n r) (trace (Schema_Migrate s db)) ->
      n = lenl (Versions s)
      /\ exists v tail,
          0 <= v < lenl (Versions s)
          /\ trace (Schema_Migrate s db)
             = ([EvBegin None; EvReadVersion (inr v)]
                ++ map apply_ok (pending (Versions s) v)
                ++ EvWriteVersion n r :: tail)%list)
  /\ (forall r,
         In (EvCommit r) (trace (Schema_Migrate s db)) ->
         In (EvWriteVersion (lenl (Versions s)) None)
            (trace (Schema_Migrate s db))).
Proof.
  split.
  - intros n r. exit_paths s db; intros Hin; in_trace Hin;
      try (destruct (run_bodies_events D _ _ _ _ _ Hrun _ Hin)
            as (j & b & res & [=] & _));
      injection Hin as <- <-;
      pose proof (run_bodies_shape D _ _ _ _ _ Hrun) as Hshape;
      cbn in Hshape; subst evs;
      (split; [reflexivity|]); exists v'; eexists; (split; [exact Hv|]);
      reflexivity.
  - intros r. exit_paths s db; intros Hin; in_trace Hin;
      try (destruct (run_bodies_events D _ _ _ _ _ Hrun _ Hin)
            as (j & b & res & [=] & _));
      cbn; right; right; apply in_or_app; right; cbn; tauto.
Qed.

(** X13.  An error of [Migrate] names the call that failed and wraps
    what the driver reported: the cause is never [ErrTxDone], the failed
    call is the last one before the deferred rollback (the only call
    when [Begin] failed), and the stage named is the stage of that
    call. *)
Theorem Migrate_error_stage (D : Driver) (s : Schema) (db : Conn D)
        (failure : MigrateError D) :
  outcome (Schema_Migrate s db) = Return (Some failure) ->
  exists e,
    Unwrap D failure = DriverError e
    /\ match failure with
       | CannotBegin _ =>
           trace (Schema_Migrate s db) = [EvBegin (Some (DriverError e))]
       | CannotGetUserVersion _ =>
           exists rr,
           trace (Schema_Migrate s db)
           = [EvBegin None; EvReadVersion (inl (DriverError e));
              EvRollback rr]
       | CannotApply i _ =>
           exists pre body rr,
           trace (Schema_Migrate s db)
           = (pre ++ [EvApply i body (Some (DriverError e));
                      EvRollback rr])%list
       | CannotSetUserVersion _ =>
           exists pre rr,
           trace (Schema_Migrate s db)
           = (pre ++ [EvWriteVersion (lenl (Versions s))
                                     (Some (DriverError e));
                      EvRollback rr])%list
       | CannotCommit _ =>
           exists pre,
           trace (Schema_Migrate s db)
           = (pre ++ [EvCommit (Some (DriverError e));
                      EvRollback (Some ErrTxDone)])%list
       end.
Proof.
  exit_paths s db; intros [= <-].
  - exists ex. split; reflexivity.
  - exists ex. split; [reflexivity | eexists; reflexivity].
  - destruct (run_bodies_shape D _ _ _ _ _ Hrun)
      as (pre & i & body & e & rest & _ & -> & ->).
    exists e. split; [reflexivity|].
    exists ([EvBegin None; EvReadVersion (inr v')] ++ map apply_ok pre)%list,
      body, (lift_err D rr).
    now rewrite <- !List.app_assoc.
  - exists ex. split; [reflexivity|].
    exists ([EvBegin None; EvReadVersion (inr v')] ++ evs)%list,
      (lift_err D rr).
    now rewrite <- !List.app_assoc.
  - exists ex. split; [reflexivity|].
    exists ([EvBegin None; EvReadVersion (inr v')] ++ evs
            ++ [EvWriteVersion (lenl (Versions s)) None])%list.
    now rewrite <- !List.app_assoc.
Qed.

Lemma Migrate_error_stage_witness :
  exists e,
    Unwrap memdb.driver (CannotApply 1 (@DriverError memdb.driver "syntax error"))
    = DriverError e
    /\ exists pre body rr,
        trace (Schema_Migrate (NewSchema broken) (database 0))
        = (pre ++ [EvApply 1 body (Some (DriverError e));
                   EvRollback rr])%list.
Proof.
  apply (Migrate_error_stage memdb.driver (NewSchema broken) (database 0)
           (CannotApply 1 (@DriverError memdb.driver "syntax error"))).
  vm_compute. reflexivity.
Defined.

(** X14.  When [Migrate] reports that migration [i] cannot be applied,
    [i] is at or above the stored counter and below the number of
    versions, the statement that failed is the text of version [i], the
    pending versions below [i] were applied before it, each once and in
    order, and no later version was tried. *)
Theorem Migrate_apply_error (D : Driver) (HT : Transactional D)
        (s : Schema) (db : Conn D) (i : Z) (cause : sql_error D) :
  outcome (Schema_Migrate s db) = Return (Some (CannotApply i cause)) ->
  user_version D (committed D db) <= i < lenl (Versions s)
  /\ exists pre body rest,
      pending (Versions s) (user_version D (committed D db))
      = (pre ++ (i, body) :: rest)%list
      /\ nth_error (Versions s) (Z.to_nat i) = Some body
      /\ filter is_apply (trace (Schema_Migrate s db))
         = (map apply_ok pre ++ [EvApply i body (Some cause)])%list.
Proof.
  exit_paths s db; intros [= Herr]; try discriminate.
  rewrite <- (read_is_stored D HT _ _ _ _ HB HQ).
  destruct (run_bodies_shape D _ _ _ _ _ Hrun)
    as (pre & j & body & e & rest & Hp & -> & ->).
  injection Herr as <- <-.
  assert (Hin : In (j, body) (pending (Versions s) v'))
    by (rewrite Hp; apply in_or_app; right; now left).
  destruct (pending_in _ _ _ _ (proj1 Hv) Hin) as [Hrange Hnth].
  split; [exact Hrange|].
  exists pre, body, rest. split; [exact Hp | split; [exact Hnth|]].
  cbn. rewrite !filter_app, filter_all by apply forallb_apply_ok.
  cbn. now rewrite List.app_nil_r.
Qed.

Lemma Migrate_apply_error_witness :
  memdb.version (memdb.disk (database 0)) <= 1
  < lenl (Versions (NewSchema broken))
  /\ exists pre body rest,
      pending (Versions (NewSchema broken))
              (memdb.version (memdb.disk (database 0)))
      = (pre ++ (1, body) :: rest)%list
      /\ nth_error (Versions (NewSchema broken)) (Z.to_nat 1) = Some body
      /\ filter is_apply (trace (Schema_Migrate (NewSchema broken) (database 0)))
         = (map apply_ok pre
            ++ [EvApply 1 body
                        (Some (@DriverError memdb.driver "syntax error"))])%list.
Proof.
  apply (Migrate_apply_error memdb.driver memdb_transactional
           (NewSchema broken) (database 0) 1
           (@DriverError memdb.driver "syntax error")).
  vm_compute. reflexivity.
Defined.

(** X15.  The code does not reject a schema that ends with the
    separator either: when the last version followed by a line feed and
    the delimiter does not contain the separator, the versions of the
    schema followed by the separator are its versions followed by the
    empty string. *)
Theorem Versions_trailing_separator (magic body : string) :
  ~ occurs (separator magic)
      (last (Versions (NewSchemaWithMagic body magic)) "" ++ nl ++ magic) ->
  Versions (NewSchemaWithMagic (body ++ separator magic) magic)
  = (Versions (NewSchemaWithMagic body magic) ++ [""])%list.
Proof.
  intros Hlast.
  apply (Versions_Segments
           (NewSchemaWithMagic (body ++ separator magic) magic)).
  change (Segments (separator magic) (body ++ separator magic)
                   (Versions (NewSchemaWithMagic body magic) ++ [""])).
  replace (body ++ separator magic) with (body ++ separator magic ++ "")
    by (rewrite <- append_assoc; apply append_empty).
  apply Segments_append; [| | exact Hlast].
  - apply short_no_occurrence. unfold separator. rewrite !length_append.
    simpl. lia.
  - now apply (Versions_Segments (NewSchemaWithMagic body magic)).
Qed.

Lemma Versions_trailing_separator_witness :
  Versions (NewSchemaWithMagic (two_versions ++ separator Delimiter) Delimiter)
  = ["CREATE TABLE t(x INT);"; "ALTER TABLE t ADD COLUMN y INT;"; ""].
Proof.
  apply (Versions_trailing_separator Delimiter two_versions).
  intros H; apply occurs_Index in H; apply H; vm_compute; reflexivity.
Defined.
